(** * Relay_log_info: the multi-threaded applier's bookkeeping (sql/rpl_rli.h)

    A shallow embedding of the parts of [class Relay_log_info] that the
    parallel-apply scheduler relies on, and the properties of the scheduler
    that follow from them.

    Part I embeds the code: machine integers and call outcomes, the
    replication state flags, the recovery predicates, the dependency queue
    with its reference-counted event chains, and the three collaborators the
    header only declares (the coordinator's group status transitions, the
    committed-group queue and the commit-order manager).

    Part II states and proves the properties. *)

From Stdlib Require Import ZArith Lia.
From stdpp Require Import base option list sorting gmap strings.

Local Open Scope Z_scope.

(** ** Part I. The embedding *)

(** *** Machine integers

    [uint32] is 32 bits wide; [ulong], [ulonglong] and [1UL] are 64 bits wide
    (LP64).  Unsigned arithmetic wraps around. *)

Definition wrap (width x : Z) : Z := x mod 2 ^ width.

Definition uint32 (x : Z) : Z := wrap 32 x.
Definition ulong (x : Z) : Z := wrap 64 x.
Definition ulonglong (x : Z) : Z := wrap 64 x.

(** [1UL << n] *)
Definition one_UL_shl (n : Z) : Z := ulong (Z.shiftl 1 n).

(** [~x] on an [unsigned long] *)
Definition not_UL (x : Z) : Z := ulong (Z.lnot x).

(** *** Outcomes of a call

    A member function either returns, or does not come back to its caller:
    a debug assertion aborts the server, a mutex held by another thread
    blocks, a pointer to a destroyed object is followed, the nesting of
    destructor calls exceeds the thread's stack, or the model's loop budget
    is spent. *)

Inductive failure : Set :=
| AssertionFailed
| WouldBlock
| DanglingPointer
| StackExhausted
| OutOfFuel.

Inductive result (A : Type) : Type :=
| Ok (a : A)
| Fail (e : failure).

Arguments Ok {A} a.
Arguments Fail {A} e.

#[global] Instance result_ret : MRet result := fun A a => Ok a.
#[global] Instance result_bind : MBind result := fun A B f m =>
  match m with
  | Ok a => f a
  | Fail e => Fail e
  end.

(** How the server is built: [SAFE_MUTEX] turns
    [mysql_mutex_assert_owner] into a check, a build without [DBUG_OFF] keeps
    [DBUG_ASSERT], and [dtor_depth] is the number of nested destructor calls
    that fit on a thread's stack. *)
Record build : Set := Build {
  safe_mutex : bool;
  dbug_on : bool;
  dtor_depth : nat
}.

Definition DBUG_ASSERT (cfg : build) (cond : bool) : result unit :=
  if dbug_on cfg && negb cond then Fail AssertionFailed else Ok tt.

(** *** Replication state flags (rpl_rli.h, lines 127-133 and 783-808) *)

Module Flags.

Inductive enum_state_flag : Set :=
| IN_STMT
| STATE_FLAGS_COUNT.

(** The enumerators' values: [IN_STMT] is 0, the counter that follows is 1. *)
Definition flag_value (flag : enum_state_flag) : Z :=
  match flag with
  | IN_STMT => 0
  | STATE_FLAGS_COUNT => 1
  end.

#[global] Instance enum_state_flag_eq_dec : EqDecision enum_state_flag.
Proof. solve_decision. Defined.

(** [m_flags |= (1UL << flag)]: the operands are widened to [unsigned long]
    and the result is stored back into the [uint32] member. *)
Definition set_flag (m_flags : Z) (flag : enum_state_flag) : Z :=
  uint32 (Z.lor m_flags (one_UL_shl (flag_value flag))).

(** [return m_flags & (1UL << flag)]: converted to [bool], so true when the
    conjunction is not zero. *)
Definition get_flag (m_flags : Z) (flag : enum_state_flag) : bool :=
  negb (Z.land m_flags (one_UL_shl (flag_value flag)) =? 0).

(** [m_flags &= ~(1UL << flag)] *)
Definition clear_flag (m_flags : Z) (flag : enum_state_flag) : Z :=
  uint32 (Z.land m_flags (not_UL (one_UL_shl (flag_value flag)))).

End Flags.

(** *** Recovery and parallel execution (rpl_rli.h, lines 598-635, 687-722) *)

Module Mts.

(** The coordinator's group status, in the order of the enumeration. *)
Inductive mts_group_status_t : Set :=
| MTS_NOT_IN_GROUP
| MTS_IN_GROUP
| MTS_END_GROUP
| MTS_KILLED_GROUP.

#[global] Instance mts_group_status_eq_dec : EqDecision mts_group_status_t.
Proof. solve_decision. Defined.

(** The members the predicates read. [workers_elements] is
    [workers.elements], the length of the dynamic array of workers. *)
Record rli : Set := Rli {
  workers_elements : Z;
  slave_parallel_workers : Z;
  recovery_groups_inited : bool;
  mts_recovery_group_cnt : Z;
  mts_group_status : mts_group_status_t
}.

Definition is_mts_recovery (r : rli) : bool :=
  negb (mts_recovery_group_cnt r =? 0).

Definition clear_mts_recovery_groups (r : rli) : rli :=
  if recovery_groups_inited r
  then Rli (workers_elements r) (slave_parallel_workers r) false 0
           (mts_group_status r)
  else r.

Definition is_parallel_exec (cfg : build) (r : rli) : result bool :=
  let ret := (0 <? slave_parallel_workers r) && negb (is_mts_recovery r) in
  DBUG_ASSERT cfg (negb ret || (0 <? workers_elements r));;
  Ok ret.

Definition is_mts_in_group (cfg : build) (r : rli) : result bool :=
  par ← is_parallel_exec cfg r;
  Ok (par && bool_decide (mts_group_status r = MTS_IN_GROUP)).

End Mts.

(** *** The dependency tracker (rpl_rli.h, lines 1132-1253) *)

Module Dep.

Abbreviation thread_id := nat.

(** Addresses of [Log_event_wrapper] objects. *)
Abbreviation loc := positive.

(** Modelled from the spec: [Log_event_wrapper] is declared in
    log_event_wrapper.h, not in rpl_rli.h.  The spec describes it as a node
    of a reference-counted chain of a group's events; rpl_rli.h uses its
    member [next_ev], a [shared_ptr] to the next node of the group.
    [use_count] is the number of [shared_ptr]s that own the node; an object
    lives in the store for as long as that number is positive. *)
Record Log_event_wrapper : Set := Wrapper {
  next_ev : option loc;
  use_count : positive
}.

Abbreviation heap := (gmap loc Log_event_wrapper).

Definition add_ref (w : Log_event_wrapper) : Log_event_wrapper :=
  Wrapper (next_ev w) (Pos.succ (use_count w)).

Definition drop_ref (w : Log_event_wrapper) : Log_event_wrapper :=
  Wrapper (next_ev w) (Pos.pred (use_count w)).

Definition reset_next_ev (w : Log_event_wrapper) : Log_event_wrapper :=
  Wrapper None (use_count w).

(** Copying a [shared_ptr]: one more owner of the object it points to. *)
Definition sp_copy (h : heap) (p : option loc) : heap :=
  match p with
  | Some l => alter add_ref l h
  | None => h
  end.

(** Destroying (or resetting) a [shared_ptr]: one owner less; the last owner
    runs the destructor of the object, which destroys its member [next_ev]
    in turn, one nested call deeper. *)
Fixpoint sp_release (depth : nat) (h : heap) (p : option loc) : result heap :=
  match p with
  | None => Ok h
  | Some l =>
    match h !! l with
    | None => Ok h
    | Some w =>
      if bool_decide (use_count w = 1%positive) then
        match depth with
        | O => Fail StackExhausted
        | S depth' => sp_release depth' (delete l h) (next_ev w)
        end
      else Ok (alter drop_ref l h)
    end
  end.

(** Destroying a container of [shared_ptr]s, element by element. *)
Fixpoint sp_release_all (depth : nat) (h : heap) (ps : list (option loc))
  : result heap :=
  match ps with
  | [] => Ok h
  | p :: ps' => h' ← sp_release depth h p; sp_release_all depth h' ps'
  end.

(** Mutexes: the owner, if any. *)
Abbreviation mutex := (option thread_id).

Definition mysql_mutex_lock (self : thread_id) (m : mutex) : result mutex :=
  match m with
  | None => Ok (Some self)
  | Some _ => Fail WouldBlock
  end.

Definition mysql_mutex_unlock (self : thread_id) (m : mutex) : result mutex :=
  if bool_decide (m = Some self) then Ok None else Fail AssertionFailed.

Definition mysql_mutex_assert_owner (cfg : build) (self : thread_id) (m : mutex)
  : result unit :=
  if safe_mutex cfg && negb (bool_decide (m = Some self))
  then Fail AssertionFailed
  else Ok tt.

(** Condition variables: the threads waiting, and next to them the threads
    that a signal has made runnable.  A broadcast wakes every waiter. *)
Definition mysql_cond_broadcast (waiters runnable : list thread_id)
  : list thread_id * list thread_id :=
  ([], runnable ++ waiters).

(** The first loop of [cleanup_group]: push every node of the chain on the
    stack [events] (top first).  [event] aliases the parameter
    [begin_event]; assigning [event->next_ev] to it copies the pointer to
    the next node and then gives up the one to the current node. *)
Fixpoint collect_events (fuel depth : nat) (h : heap) (event : option loc)
  (events : list loc) : result (heap * list loc) :=
  match event with
  | None => Ok (h, events)
  | Some l =>
    match fuel with
    | O => Fail OutOfFuel
    | S fuel' =>
      match h !! l with
      | None => Fail DanglingPointer
      | Some w =>
        let h1 := sp_copy h (next_ev w) in
        h2 ← sp_release depth h1 (Some l);
        collect_events fuel' depth h2 (next_ev w) (l :: events)
      end
    end
  end.

(** The second loop of [cleanup_group]: pop the stack; [lock()] yields an
    owner [sptr] when the node is still alive, [sptr->next_ev.reset()] clears
    the link and gives up the reference it held, and [sptr] is destroyed at
    the end of the iteration. *)
Fixpoint reset_links (depth : nat) (h : heap) (events : list loc)
  : result heap :=
  match events with
  | [] => Ok h
  | l :: rest =>
    match h !! l with
    | Some w =>
      let h1 := sp_copy h (Some l) in
      let h2 := alter reset_next_ev l h1 in
      h3 ← sp_release depth h2 (next_ev w);
      h4 ← sp_release depth h3 (Some l);
      reset_links depth h4 rest
    | None => reset_links depth h rest
    end
  end.

(** [cleanup_group(begin_event)]: the argument is passed by value, so the
    callee owns a copy for the duration of the call; when it returns the
    parameter is null (the first loop left it so) and nothing is released. *)
Definition cleanup_group (fuel : nat) (cfg : build) (h : heap)
  (begin_event : option loc) : result heap :=
  let h0 := sp_copy h begin_event in
  '(h1, events) ← collect_events fuel (dtor_depth cfg) h0 begin_event [];
  reset_links (dtor_depth cfg) h1 events.

(** [for (const auto& begin_event : dep_queue) cleanup_group(begin_event);] *)
Fixpoint cleanup_groups (fuel : nat) (cfg : build) (h : heap)
  (queue : list (option loc)) : result heap :=
  match queue with
  | [] => Ok h
  | begin_event :: queue' =>
    h' ← cleanup_group fuel cfg h begin_event;
    cleanup_groups fuel cfg h' queue'
  end.

(** Chains of event wrappers: [chain h p ls] lists the objects met from
    [p] along [next_ev], up to the null link that ends the group. *)
Inductive chain (h : heap) : option loc -> list loc -> Prop :=
| chain_end : chain h None []
| chain_link (l : loc) (w : Log_event_wrapper) (ls : list loc) :
    h !! l = Some w -> chain h (next_ev w) ls -> chain h (Some l) (l :: ls).

(** The store after an owner of the object at [l] is gone, when that
    object has no link of its own to give up: it has one owner less, or is
    destroyed if that was its last. *)
Definition unlink (h : heap) (l : loc) : heap :=
  match h !! l with
  | Some w =>
    if bool_decide (use_count w = 1%positive)
    then delete l h else alter drop_ref l h
  | None => h
  end.

(** The store after the link of the object at [l] is reset and an owner of
    that object is gone. *)
Definition release_node (l : loc) (h : heap) : heap :=
  unlink (alter reset_next_ev l h) l.

(** The object [w] after [release_node], if it survives. *)
Definition released (w : Log_event_wrapper) : option Log_event_wrapper :=
  if bool_decide (use_count w = 1%positive) then None
  else Some (Wrapper None (Pos.pred (use_count w))).

(** The store after [cleanup_group] has dealt with the chain [ls]: the
    first object has its link reset, the others are released. *)
Definition cleared (h : heap) (ls : list loc) : heap :=
  match ls with
  | [] => h
  | l :: rest => alter reset_next_ev l (foldr release_node h rest)
  end.

(** The wrappers of [h'] have the links of those of [h]. *)
Definition same_links (h h' : heap) : Prop :=
  forall l : loc, next_ev <$> h' !! l = next_ev <$> h !! l.

Section Tracker.

(** [Dependency_key] is declared outside the header; any type with a
    decidable equality that can key a hash map will do. *)
Context {Dependency_key : Type} `{Countable Dependency_key}.

(** The members of [Relay_log_info] related to dependency tracking, with
    the store of event wrappers they point into ([wrappers]) and the threads
    that a signal has made runnable ([woken]).  A condition variable is the
    list of threads waiting on it. *)
Record tracker : Type := Tracker {
  dep_queue : list (option loc);
  dep_lock : mutex;
  dep_key_lookup : gmap Dependency_key (option loc);
  dep_key_lookup_mutex : mutex;
  keys_accessed_by_group : gset Dependency_key;
  dbs_accessed_by_group : gset string;
  dep_full_cond : list thread_id;
  dep_full : bool;
  dep_empty_cond : list thread_id;
  num_workers_waiting : Z;
  prev_event : option loc;
  table_map_events : gmap Z Z;
  current_begin_event : option loc;
  trx_queued : bool;
  dep_sync_group : bool;
  dep_trx_all_done_cond : list thread_id;
  num_in_flight_trx : Z;
  num_events_in_current_group : Z;
  wrappers : heap;
  woken : list thread_id
}.

(** The tracker with a new queue and store, all else as it was. *)
Definition with_queue (s : tracker) (q : list (option loc)) (h : heap)
  : tracker :=
  Tracker q (dep_lock s) (dep_key_lookup s) (dep_key_lookup_mutex s)
    (keys_accessed_by_group s) (dbs_accessed_by_group s) (dep_full_cond s)
    (dep_full s) (dep_empty_cond s) (num_workers_waiting s) (prev_event s)
    (table_map_events s) (current_begin_event s) (trx_queued s)
    (dep_sync_group s) (dep_trx_all_done_cond s) (num_in_flight_trx s)
    (num_events_in_current_group s) h (woken s).

(** [push_back] stores a copy of the pointer at the tail. *)
Definition enqueue_dep (cfg : build) (self : thread_id)
  (begin_event : option loc) (s : tracker) : result (bool * tracker) :=
  mysql_mutex_assert_owner cfg self (dep_lock s);;
  let h := sp_copy (wrappers s) begin_event in
  Ok (true, with_queue s (dep_queue s ++ [begin_event]) h).

(** [front()] is copied into [ret], [pop_front()] destroys the queue's own
    pointer, and [ret] is handed to the caller. *)
Definition dequeue_dep (cfg : build) (self : thread_id) (s : tracker)
  : result (option loc * tracker) :=
  mysql_mutex_assert_owner cfg self (dep_lock s);;
  match dep_queue s with
  | [] => Ok (None, s)
  | front :: rest =>
    let h1 := sp_copy (wrappers s) front in
    h2 ← sp_release (dtor_depth cfg) h1 front;
    Ok (front, with_queue s rest h2)
  end.

(** [clear_dep(need_dep_lock)], statement by statement; the new values of
    the members are gathered in the record at the end. *)
Definition clear_dep (fuel : nat) (cfg : build) (self : thread_id)
  (need_dep_lock : bool) (s : tracker) : result tracker :=
  lk ← (if need_dep_lock then mysql_mutex_lock self (dep_lock s)
        else Ok (dep_lock s));
  DBUG_ASSERT cfg (Z.of_nat (length (dep_queue s)) <=? num_in_flight_trx s);;
  let in_flight :=
    ulonglong (num_in_flight_trx s - Z.of_nat (length (dep_queue s))) in
  h1 ← cleanup_groups fuel cfg (wrappers s) (dep_queue s);
  h2 ← sp_release_all (dtor_depth cfg) h1 (dep_queue s);
  h3 ← sp_release (dtor_depth cfg) h2 (prev_event s);
  h4 ← sp_release (dtor_depth cfg) h3 (current_begin_event s);
  let '(empty_cond, woken1) :=
    mysql_cond_broadcast (dep_empty_cond s) (woken s) in
  let '(full_cond, woken2) :=
    mysql_cond_broadcast (dep_full_cond s) woken1 in
  let '(all_done_cond, woken3) :=
    mysql_cond_broadcast (dep_trx_all_done_cond s) woken2 in
  klk ← mysql_mutex_lock self (dep_key_lookup_mutex s);
  h5 ← sp_release_all (dtor_depth cfg) h4
         ((map_to_list (dep_key_lookup s)).*2);
  klk' ← mysql_mutex_unlock self klk;
  lk' ← (if need_dep_lock then mysql_mutex_unlock self lk else Ok lk);
  Ok {| dep_queue := [];
        dep_lock := lk';
        dep_key_lookup := ∅;
        dep_key_lookup_mutex := klk';
        keys_accessed_by_group := ∅;
        dbs_accessed_by_group := ∅;
        dep_full_cond := full_cond;
        dep_full := false;
        dep_empty_cond := empty_cond;
        num_workers_waiting := num_workers_waiting s;
        prev_event := None;
        table_map_events := ∅;
        current_begin_event := None;
        trx_queued := false;
        dep_sync_group := dep_sync_group s;
        dep_trx_all_done_cond := all_done_cond;
        num_in_flight_trx := in_flight;
        num_events_in_current_group := 0;
        wrappers := h5;
        woken := woken3 |}.

(** A state in which [clear_dep] can run to its end: the mutexes it takes
    are free, the asserted bound on [num_in_flight_trx] holds where it is
    checked, the pending groups are chains ([groups], one list of events
    for each pointer in the queue) that share no event and are no longer
    than the loop budget, and the stack fits as many nested destructor
    calls as there are wrappers alive. *)
Definition can_clear (fuel : nat) (cfg : build) (need_dep_lock : bool)
  (s : tracker) (groups : list (list loc)) : Prop :=
  (need_dep_lock = true -> dep_lock s = None) /\
  dep_key_lookup_mutex s = None /\
  (dbug_on cfg = false \/
   Z.of_nat (length (dep_queue s)) <= num_in_flight_trx s) /\
  Forall2 (chain (wrappers s)) (dep_queue s) groups /\
  NoDup (mjoin groups) /\
  Forall (fun ls => (length ls <= fuel)%nat) groups /\
  (1 <= dtor_depth cfg)%nat /\
  (size (wrappers s) <= dtor_depth cfg)%nat.

(** A coordinator that enqueues the groups [evs] one after the other. *)
Fixpoint enqueue_all (cfg : build) (self : thread_id)
  (evs : list (option loc)) (s : tracker) : result tracker :=
  match evs with
  | [] => Ok s
  | ev :: evs' =>
    '(_, s') ← enqueue_dep cfg self ev s;
    enqueue_all cfg self evs' s'
  end.

(** A worker that dequeues [n] times and keeps what it got, in order. *)
Fixpoint dequeue_n (cfg : build) (self : thread_id) (n : nat) (s : tracker)
  : result (list (option loc) * tracker) :=
  match n with
  | O => Ok ([], s)
  | S n' =>
    '(ev, s') ← dequeue_dep cfg self s;
    '(evs, s'') ← dequeue_n cfg self n' s';
    Ok (ev :: evs, s'')
  end.

End Tracker.

Arguments tracker Dependency_key {_ _}.

(** A tracker in mid-flight, keyed by numbers: group A (events 1, 2, 3, the
    last one also the last writer of key 7) and group B (event 4, also owned
    outside the tracker) are pending, the queue is full, the coordinator
    (thread 0) waits for room, workers 2 and 3 wait for work, thread 5
    waits for the groups in flight, of which there are five. *)
Definition sample_tracker (lock : mutex) : tracker nat :=
  {| dep_queue := [Some 1%positive; Some 4%positive];
     dep_lock := lock;
     dep_key_lookup := {[ 7%nat := Some 3%positive ]};
     dep_key_lookup_mutex := None;
     keys_accessed_by_group := {[ 7%nat ]};
     dbs_accessed_by_group := {[ "test"%string ]};
     dep_full_cond := [0%nat];
     dep_full := true;
     dep_empty_cond := [2%nat; 3%nat];
     num_workers_waiting := 2;
     prev_event := None;
     table_map_events := ∅;
     current_begin_event := None;
     trx_queued := true;
     dep_sync_group := false;
     dep_trx_all_done_cond := [5%nat];
     num_in_flight_trx := 5;
     num_events_in_current_group := 3;
     wrappers :=
       <[1%positive := Wrapper (Some 2%positive) 1]>
         (<[2%positive := Wrapper (Some 3%positive) 1]>
            (<[3%positive := Wrapper None 2]>
               (<[4%positive := Wrapper None 2]> ∅)));
     woken := [] |}.

End Dep.

(** *** The coordinator's group status transitions

    The header declares the four statuses and draws their diagram; the code
    that assigns [mts_group_status] lives in the scheduler's source files. *)

Module Coordinator.
Import Mts.

(** Modelled from the spec: what the coordinator reacts to in section 4.1,
    the code being outside rpl_rli.h: an event of a group that is not its
    last, the terminal event of a group, the completion of the
    synchronization with the workers, and a request to stop. *)
Inductive coordinator_event : Set :=
| NonTerminalEvent
| TerminalEvent
| WorkersSynchronized
| StopRequest.




(** Modelled from the spec: the code that assigns [mts_group_status] is not
    in rpl_rli.h.  The rules of the spec's section 4.1 (a first and a
    further not-terminal event, the terminal event, the return to
    NOT_IN_GROUP once the workers are synchronized, a stop request in any
    status), with the one arrow the header's diagram has besides: the first
    event of the next group is accepted in END_GROUP as well, without a
    synchronization in between.  Every other combination is rejected. *)
Definition next_status (st : mts_group_status_t) (ev : coordinator_event)
  : option mts_group_status_t :=
  match ev, st with
  | StopRequest, _ => Some MTS_KILLED_GROUP
  | NonTerminalEvent, MTS_NOT_IN_GROUP => Some MTS_IN_GROUP
  | NonTerminalEvent, MTS_IN_GROUP => Some MTS_IN_GROUP
  | NonTerminalEvent, MTS_END_GROUP => Some MTS_IN_GROUP
  | TerminalEvent, MTS_IN_GROUP => Some MTS_END_GROUP
  | WorkersSynchronized, MTS_END_GROUP => Some MTS_NOT_IN_GROUP
  | _, _ => None
  end.

(** The status after a sequence of events, when every one is accepted. *)
Fixpoint run_status (st : mts_group_status_t) (evs : list coordinator_event)
  : option mts_group_status_t :=
  match evs with
  | [] => Some st
  | ev :: evs' =>
    match next_status st ev with
    | Some st' => run_status st' evs'
    | None => None
    end
  end.


End Coordinator.

(** *** The committed-group queue (GAQ)

    [Relay_log_info::gaq] points to a [Slave_committed_queue]; the class is
    defined with the workers' code, not in rpl_rli.h. *)

Module Gaq.

Local Open Scope nat_scope.

(** Modelled from the spec: [Slave_job_group] is not declared in
    rpl_rli.h.  A descriptor of the committed-group queue holds the group
    index, the checkpoint sequence number and the source position of a group
    under processing, and whether its worker has reported it complete. *)
Record Slave_job_group : Set := JobGroup {
  group_index : nat;
  checkpoint_seqno : nat;
  master_log_pos : Z;
  done : bool
}.

(** Modelled from the spec: [Slave_committed_queue] is not declared in
    rpl_rli.h.  The queue of descriptors, the descriptor the durable
    low-water-mark has last moved past ([lwm], none at start), and the
    number of groups assigned so far, which is the index of the next. *)
Record Slave_committed_queue : Set := Queue {
  Q : list Slave_job_group;
  lwm : option Slave_job_group;
  assigned : nat
}.

Definition init : Slave_committed_queue := Queue [] None 0.

(** Modelled from the spec: the coordinator assigns a group (the queue's
    code is missing); a descriptor with the next index joins the tail. *)
Definition en_queue (seqno : nat) (pos : Z) (q : Slave_committed_queue)
  : Slave_committed_queue :=
  Queue (Q q ++ [JobGroup (assigned q) seqno pos false]) (lwm q)
        (S (assigned q)).

Definition mark_done (g : nat) (d : Slave_job_group) : Slave_job_group :=
  if bool_decide (group_index d = g)
  then JobGroup (group_index d) (checkpoint_seqno d) (master_log_pos d) true
  else d.

(** Modelled from the spec: a worker reports group [g] complete (the
    queue's code is missing); its descriptor is marked. *)
Definition report_done (g : nat) (q : Slave_committed_queue)
  : Slave_committed_queue :=
  Queue (mark_done g <$> Q q) (lwm q) (assigned q).

(** Modelled from the spec: the scan of a checkpoint pass from the head
    (the queue's code is missing); the longest prefix of complete
    descriptors is evicted, and the mark moves to the last of them. *)
Fixpoint scan (ds : list Slave_job_group) (mark : option Slave_job_group)
  : list Slave_job_group * option Slave_job_group :=
  match ds with
  | d :: ds' => if done d then scan ds' (Some d) else (ds, mark)
  | [] => ([], mark)
  end.

(** Modelled from the spec: the checkpoint pass over the queue, whose code
    is missing. *)
Definition move_queue_head (q : Slave_committed_queue)
  : Slave_committed_queue :=
  let '(rest, mark) := scan (Q q) (lwm q) in
  Queue rest mark (assigned q).

(** What can happen to the queue, in any order. *)
Inductive op : Set :=
| Assign (seqno : nat) (pos : Z)
| Report (g : nat)
| Checkpoint.

Definition step (q : Slave_committed_queue) (o : op) : Slave_committed_queue :=
  match o with
  | Assign seqno pos => en_queue seqno pos q
  | Report g => report_done g q
  | Checkpoint => move_queue_head q
  end.

Definition run (ops : list op) : Slave_committed_queue := foldl step init ops.

(** The index of the oldest group the low-water-mark does not cover. *)
Definition low (q : Slave_committed_queue) : nat :=
  match lwm q with
  | Some d => S (group_index d)
  | None => 0
  end.

(** The window of the queue: the descriptors in flight are those of the
    groups from the low-water-mark up to the last one assigned, in order;
    a descriptor is marked only after a report; and every group below the
    mark has been reported. *)
Definition window (ops : list op) (q : Slave_committed_queue) : Prop :=
  group_index <$> Q q = seq (low q) (assigned q - low q) /\
  low q <= assigned q /\
  (forall d, d ∈ Q q -> done d = true -> Report (group_index d) ∈ ops) /\
  (forall g, g < low q -> Report g ∈ ops).

End Gaq.

(** *** The commit-order manager

    [Relay_log_info] only stores and returns a pointer to the
    [Commit_order_manager]; the class is defined elsewhere. *)

Module CommitOrder.

Local Open Scope nat_scope.

(** Modelled from the spec: [Commit_order_manager] is only declared in
    rpl_rli.h.  The groups the coordinator has handed out and that are not
    committed yet, oldest first ([pending]); those whose worker has asked to
    commit and is blocked ([waiting]); the grants made so far, oldest first
    ([granted]); and the least index a new group may have. *)
Record Commit_order_manager : Set := Manager {
  pending : list nat;
  waiting : list nat;
  granted : list nat;
  next_index : nat
}.

Definition init : Commit_order_manager := Manager [] [] [] 0.

(** Modelled from the spec: the coordinator hands out group [g] (the
    manager's code is missing); group indices only grow. *)
Definition register_trx (g : nat) (m : Commit_order_manager)
  : Commit_order_manager :=
  if bool_decide (next_index m ≤ g)
  then Manager (pending m ++ [g]) (waiting m) (granted m) (S g)
  else m.

(** Modelled from the spec: after a grant the manager (whose code is
    missing) wakes the waiter whose predecessor has just cleared, if there
    is one; that waiter is granted in turn. *)
Fixpoint wake_next (pend wait log : list nat)
  : list nat * list nat * list nat :=
  match pend with
  | g :: pend' =>
    if bool_decide (g ∈ wait)
    then wake_next pend' (filter (λ w, w ≠ g) wait) (log ++ [g])
    else (pend, wait, log)
  | [] => ([], wait, log)
  end.

(** Modelled from the spec: a worker asks the manager (whose code is
    missing) for permission to commit group [g].  The answer is [true] when
    permission is granted at once.  A request for a group that is not
    pending, or that waits already, changes nothing. *)
Definition request (g : nat) (m : Commit_order_manager)
  : bool * Commit_order_manager :=
  match pending m with
  | oldest :: pend' =>
    if bool_decide (oldest = g) then
      let '(pend, wait, log) :=
        wake_next pend' (waiting m) (granted m ++ [g]) in
      (true, Manager pend wait log (next_index m))
    else if bool_decide (g ∈ pending m ∧ g ∉ waiting m) then
      (false, Manager (pending m) (g :: waiting m) (granted m) (next_index m))
    else (false, m)
  | [] => (false, m)
  end.

Inductive op : Set :=
| Register (g : nat)
| Request (g : nat).

Definition step (m : Commit_order_manager) (o : op) : Commit_order_manager :=
  match o with
  | Register g => register_trx g m
  | Request g => (request g m).2
  end.

Definition run (ops : list op) : Commit_order_manager := foldl step init ops.

(** The manager's invariant: the grants followed by the pending groups are
    all the groups handed out, in strictly increasing order and below the
    next index; only pending groups wait, and never the oldest one. *)
Definition ordered (m : Commit_order_manager) : Prop :=
  StronglySorted lt (granted m ++ pending m) /\
  Forall (fun g => g < next_index m) (granted m ++ pending m) /\
  (forall g, g ∈ waiting m -> g ∈ pending m) /\
  (forall g rest, pending m = g :: rest -> g ∉ waiting m).

(** What a history of operations asks of the manager, read off the
    operations alone: the groups handed out (the registrations whose index
    exceeds every index handed out before, in order), and the groups whose
    worker has asked to commit (the requests for a group handed out
    earlier). *)
Definition note (h : list nat * list nat) (o : op) : list nat * list nat :=
  match o with
  | Register g =>
    if bool_decide (Forall (λ x, x < g) h.1) then (h.1 ++ [g], h.2) else h
  | Request g =>
    if bool_decide (g ∈ h.1) then (h.1, g :: h.2) else h
  end.

Definition history (ops : list op) : list nat * list nat :=
  foldl note ([], []) ops.

Definition handed_out (ops : list op) : list nat := (history ops).1.

Definition asked (ops : list op) : list nat := (history ops).2.

(** The manager keeps track of a history: no group handed out is lost, it
    is granted or still pending; the workers that have asked are the granted
    and the waiting ones; and the next index is above exactly the indices
    handed out. *)
Definition tracks (ops : list op) (m : Commit_order_manager) : Prop :=
  granted m ++ pending m = handed_out ops /\
  (forall g, g ∈ asked ops <-> g ∈ granted m \/ g ∈ waiting m) /\
  (forall g, next_index m ≤ g <->
             Forall (λ x, x < g) (granted m ++ pending m)).

End CommitOrder.

(** *** Log coordinates and the UNTIL condition
    (rpl_rli.h, lines 250-282, 385-414, 454-489 and 838-897)

    The positions of the group and of the event being executed, in the relay
    log and in the master's binary log, and the condition of START SLAVE
    UNTIL with its cached comparison of log names.  The log names themselves
    are written through [strmake] and are left out. *)

Module Coords.

Inductive until_condition_t : Set :=
| UNTIL_NONE
| UNTIL_MASTER_POS
| UNTIL_RELAY_POS
| UNTIL_SQL_BEFORE_GTIDS
| UNTIL_SQL_AFTER_GTIDS
| UNTIL_SQL_AFTER_MTS_GAPS
| UNTIL_DONE.

#[global] Instance until_condition_eq_dec : EqDecision until_condition_t.
Proof. solve_decision. Defined.

Inductive until_log_names_cmp_t : Set :=
| UNTIL_LOG_NAMES_CMP_UNKNOWN
| UNTIL_LOG_NAMES_CMP_LESS
| UNTIL_LOG_NAMES_CMP_EQUAL
| UNTIL_LOG_NAMES_CMP_GREATER.

(** The positions are [ulonglong] ([my_off_t] for the master's). *)
Record coordinates : Set := Coordinates {
  group_relay_log_pos : Z;
  event_relay_log_pos : Z;
  future_event_relay_log_pos : Z;
  group_master_log_pos : Z;
  future_group_master_log_pos : Z;
  until_condition : until_condition_t;
  until_log_names_cmp_result : until_log_names_cmp_t
}.

Definition set_until_log_names_cmp_result (v : until_log_names_cmp_t)
  (r : coordinates) : coordinates :=
  Coordinates (group_relay_log_pos r) (event_relay_log_pos r)
    (future_event_relay_log_pos r) (group_master_log_pos r)
    (future_group_master_log_pos r) (until_condition r) v.

Definition notify_group_relay_log_name_update (r : coordinates)
  : coordinates :=
  if bool_decide (until_condition r = UNTIL_RELAY_POS)
  then set_until_log_names_cmp_result UNTIL_LOG_NAMES_CMP_UNKNOWN r
  else r.

Definition notify_group_master_log_name_update (r : coordinates)
  : coordinates :=
  if bool_decide (until_condition r = UNTIL_MASTER_POS)
  then set_until_log_names_cmp_result UNTIL_LOG_NAMES_CMP_UNKNOWN r
  else r.

Definition set_event_relay_log_pos (log_pos : Z) (r : coordinates)
  : coordinates :=
  Coordinates (group_relay_log_pos r) log_pos
    (future_event_relay_log_pos r) (group_master_log_pos r)
    (future_group_master_log_pos r) (until_condition r)
    (until_log_names_cmp_result r).

Definition get_event_relay_log_pos (r : coordinates) : Z :=
  event_relay_log_pos r.

Definition inc_event_relay_log_pos (r : coordinates) : coordinates :=
  set_event_relay_log_pos (future_event_relay_log_pos r) r.

Definition get_future_event_relay_log_pos (r : coordinates) : Z :=
  future_event_relay_log_pos r.

Definition set_future_event_relay_log_pos (log_pos : Z) (r : coordinates)
  : coordinates :=
  Coordinates (group_relay_log_pos r) (event_relay_log_pos r) log_pos
    (group_master_log_pos r) (future_group_master_log_pos r)
    (until_condition r) (until_log_names_cmp_result r).

Definition get_group_master_log_pos (r : coordinates) : Z :=
  group_master_log_pos r.

Definition set_group_master_log_pos (log_pos : Z) (r : coordinates)
  : coordinates :=
  Coordinates (group_relay_log_pos r) (event_relay_log_pos r)
    (future_event_relay_log_pos r) log_pos (future_group_master_log_pos r)
    (until_condition r) (until_log_names_cmp_result r).

Definition get_group_relay_log_pos (r : coordinates) : Z :=
  group_relay_log_pos r.

Definition set_group_relay_log_pos (log_pos : Z) (r : coordinates)
  : coordinates :=
  Coordinates log_pos (event_relay_log_pos r)
    (future_event_relay_log_pos r) (group_master_log_pos r)
    (future_group_master_log_pos r) (until_condition r)
    (until_log_names_cmp_result r).

Definition get_future_group_master_log_pos (r : coordinates) : Z :=
  future_group_master_log_pos r.

Definition set_future_group_master_log_pos (log_pos : Z) (r : coordinates)
  : coordinates :=
  Coordinates (group_relay_log_pos r) (event_relay_log_pos r)
    (future_event_relay_log_pos r) (group_master_log_pos r) log_pos
    (until_condition r) (until_log_names_cmp_result r).

Definition until_pos (r : coordinates) : Z :=
  if bool_decide (until_condition r = UNTIL_MASTER_POS)
  then group_master_log_pos r
  else group_relay_log_pos r.

End Coords.

(** *** The SQL delay and the start of a row statement
    (rpl_rli.h, lines 360-363, 912-921, 950-966 and 1054-1095) *)

Module Delay.

(** The value of an [int] that a wider integer is stored into. *)
Definition sint32 (x : Z) : Z := wrap 32 (x + 2 ^ 31) - 2 ^ 31.

(** [sql_delay] is an [int], [sql_delay_end] and [row_stmt_start_timestamp]
    are [time_t]; [data_lock] guards the delay.  [waiting_until_delay]
    stands for the stage [THD_STAGE_INFO] sets on [info_thd]. *)
Record delay_state : Set := DelayState {
  data_lock : Dep.mutex;
  sql_delay : Z;
  sql_delay_end : Z;
  waiting_until_delay : bool;
  row_stmt_start_timestamp : Z
}.

Definition clear_sql_delay (r : delay_state) : delay_state :=
  DelayState (data_lock r) 0 (sql_delay_end r) (waiting_until_delay r)
    (row_stmt_start_timestamp r).

Definition start_sql_delay (cfg : build) (self : Dep.thread_id)
  (delay_end : Z) (r : delay_state) : result delay_state :=
  Dep.mysql_mutex_assert_owner cfg self (data_lock r);;
  Ok (DelayState (data_lock r) (sql_delay r) delay_end true
        (row_stmt_start_timestamp r)).

(** [int32 get_sql_delay() { return sql_delay; }] *)
Definition get_sql_delay (r : delay_state) : Z := sint32 (sql_delay r).

(** [void set_sql_delay(time_t _sql_delay) { sql_delay= _sql_delay; }]: the
    64-bit argument is narrowed to the [int] member. *)
Definition set_sql_delay (_sql_delay : Z) (r : delay_state) : delay_state :=
  DelayState (data_lock r) (sint32 _sql_delay) (sql_delay_end r)
    (waiting_until_delay r) (row_stmt_start_timestamp r).

Definition get_sql_delay_end (r : delay_state) : Z := sql_delay_end r.

Definition get_row_stmt_start_timestamp (r : delay_state) : Z :=
  row_stmt_start_timestamp r.

Definition with_row_stmt_start_timestamp (ts : Z) (r : delay_state)
  : delay_state :=
  DelayState (data_lock r) (sql_delay r) (sql_delay_end r)
    (waiting_until_delay r) ts.

(** [my_time_0] is what [my_time(0)], the clock, returns at the call. *)
Definition set_row_stmt_start_timestamp (my_time_0 : Z) (r : delay_state)
  : Z * delay_state :=
  let r' :=
    if row_stmt_start_timestamp r =? 0
    then with_row_stmt_start_timestamp my_time_0 r
    else r in
  (row_stmt_start_timestamp r', r').

Definition reset_row_stmt_start_timestamp (r : delay_state) : delay_state :=
  with_row_stmt_start_timestamp 0 r.

(** The SQL thread calling [set_row_stmt_start_timestamp] at the times
    [clock], keeping what each call returns. *)
Fixpoint set_row_stmt_start_timestamps (clock : list Z) (r : delay_state)
  : list Z * delay_state :=
  match clock with
  | [] => ([], r)
  | now :: clock' =>
    let '(ts, r') := set_row_stmt_start_timestamp now r in
    let '(tss, r'') := set_row_stmt_start_timestamps clock' r' in
    (ts :: tss, r'')
  end.

End Delay.

(** *** The tables to lock (rpl_rli.h, lines 491-514) *)

Module Tables.

(** The members of [TABLE_LIST] and [RPL_TABLE_LIST] that [get_table_data]
    reads; the structures are declared outside rpl_rli.h.  Pointers are
    addresses or null; the address of the member [m_tabledef] of the entry
    at [l] is given as [l]. *)
Record RPL_TABLE_LIST : Set := TableList {
  table : option positive;
  next_global : option positive;
  m_conv_table : option positive
}.

(** An out parameter: null, or the address of a variable of the caller
    with the pointer it holds. *)
Abbreviation out_param := (option (option positive)).

(** The loop of [get_table_data]; writing through a null out parameter is
    a fault. *)
Fixpoint find_table_data (fuel : nat) (h : gmap positive RPL_TABLE_LIST)
  (ptr table_arg : option positive) (tabledef_var conv_table_var : out_param)
  : result (bool * out_param * out_param) :=
  match ptr with
  | None => Ok (false, tabledef_var, conv_table_var)
  | Some l =>
    match fuel with
    | O => Fail OutOfFuel
    | S fuel' =>
      match h !! l with
      | None => Fail DanglingPointer
      | Some entry =>
        if bool_decide (table entry = table_arg) then
          match tabledef_var, conv_table_var with
          | Some _, Some _ =>
            Ok (true, Some (Some l), Some (m_conv_table entry))
          | _, _ => Fail DanglingPointer
          end
        else find_table_data fuel' h (next_global entry) table_arg
               tabledef_var conv_table_var
      end
    end
  end.

Definition get_table_data (fuel : nat) (cfg : build)
  (h : gmap positive RPL_TABLE_LIST) (tables_to_lock : option positive)
  (table_arg : option positive) (tabledef_var conv_table_var : out_param)
  : result (bool * out_param * out_param) :=
  DBUG_ASSERT cfg (bool_decide (is_Some tabledef_var)
                   && bool_decide (is_Some conv_table_var));;
  find_table_data fuel h tables_to_lock table_arg tabledef_var
    conv_table_var.

(** [segment h p es q]: following [next_global] from [p] meets the entries
    [es], each with its address, and then arrives at [q]. *)
Inductive segment (h : gmap positive RPL_TABLE_LIST)
  : option positive -> list (positive * RPL_TABLE_LIST) -> option positive
    -> Prop :=
| segment_nil (p : option positive) : segment h p [] p
| segment_cons (l : positive) (e : RPL_TABLE_LIST)
    (es : list (positive * RPL_TABLE_LIST)) (q : option positive) :
    h !! l = Some e -> segment h (next_global e) es q ->
    segment h (Some l) ((l, e) :: es) q.

End Tables.

(** *** Being inside a group (rpl_rli.h, lines 810-828) *)

Module Group.

Section InGroup.

(** [OPTION_BEGIN] and the type of [gtid_next.type] with its enumerators
    [GTID_GROUP] and [ANONYMOUS_GROUP] are declared outside rpl_rli.h. *)
Context (OPTION_BEGIN : Z).
Context {group_type : Type} `{EqDecision group_type}.
Context (GTID_GROUP ANONYMOUS_GROUP : group_type).

(** What [is_in_group] reads of [info_thd]:
    [variables.option_bits], [variables.gtid_next.type] and
    [owned_gtid.sidno]. *)
Record thd_state : Type := ThdState {
  option_bits : Z;
  gtid_next_type : group_type;
  owned_gtid_sidno : Z
}.

Definition is_in_group (m_flags : Z) (info_thd : thd_state) : bool :=
  negb (Z.land (option_bits info_thd) OPTION_BEGIN =? 0)
  || negb (Z.land m_flags (one_UL_shl (Flags.flag_value Flags.IN_STMT)) =? 0)
  || bool_decide (gtid_next_type info_thd = GTID_GROUP)
  || bool_decide (gtid_next_type info_thd = ANONYMOUS_GROUP)
  || negb (owned_gtid_sidno info_thd =? 0).

End InGroup.

End Group.

(** *** Discarding the recovery bitmap (rpl_rli.h, lines 604-606, 692-700) *)

Module Recovery.

Section Bitmap.

(** [MY_BITMAP] and [bitmap_free] belong to the bitmap library. *)
Context {MY_BITMAP : Type} (bitmap_free : MY_BITMAP -> MY_BITMAP).

(** The members of [Mts.rli] with the bitmap [recovery_groups]. *)
Record recovery_state : Type := RecoveryState {
  rli : Mts.rli;
  recovery_groups : MY_BITMAP
}.

Definition clear_mts_recovery_groups (r : recovery_state) : recovery_state :=
  if Mts.recovery_groups_inited (rli r)
  then RecoveryState
         (Mts.Rli (Mts.workers_elements (rli r))
            (Mts.slave_parallel_workers (rli r)) false 0
            (Mts.mts_group_status (rli r)))
         (bitmap_free (recovery_groups r))
  else r.

End Bitmap.

End Recovery.

(** ** Part II. Properties *)

(** *** Bits of machine integers *)

Section Bits.

Lemma wrap_testbit (width x k : Z) :
  0 <= k < width -> Z.testbit (wrap width x) k = Z.testbit x k.
Proof.
  intros Hk. unfold wrap. apply Z.mod_pow2_bits_low. lia.
Qed.

Lemma wrap_small (width x : Z) :
  0 <= x < 2 ^ width -> wrap width x = x.
Proof. intros Hx. unfold wrap. apply Z.mod_small. exact Hx. Qed.

Lemma one_UL_shl_pow2 (n : Z) : 0 <= n < 64 -> one_UL_shl n = 2 ^ n.
Proof.
  intros Hn. unfold one_UL_shl, ulong.
  rewrite Z.shiftl_1_l. apply wrap_small. split.
  - apply Z.pow_nonneg. lia.
  - apply Z.pow_lt_mono_r; lia.
Qed.

Lemma one_UL_shl_testbit (n k : Z) :
  0 <= n < 64 -> Z.testbit (one_UL_shl n) k = bool_decide (n = k).
Proof.
  intros Hn. rewrite one_UL_shl_pow2 by exact Hn.
  rewrite Z.pow2_bits_eqb by lia.
  destruct (Z.eqb_spec n k) as [->|Hne].
  - symmetry. apply bool_decide_eq_true. reflexivity.
  - symmetry. apply bool_decide_eq_false. exact Hne.
Qed.

(** Masking with a single bit and comparing with zero reads that bit. *)
Lemma land_one_bit (m n : Z) :
  0 <= n < 64 -> negb (Z.land m (one_UL_shl n) =? 0) = Z.testbit m n.
Proof.
  intros Hn. destruct (Z.testbit m n) eqn:Hbit.
  - apply negb_true_iff, Z.eqb_neq. intros Hz.
    assert (Hb : Z.testbit (Z.land m (one_UL_shl n)) n = true).
    { rewrite Z.land_spec, Hbit, one_UL_shl_testbit by exact Hn.
      rewrite bool_decide_eq_true_2; reflexivity. }
    rewrite Hz, Z.bits_0 in Hb. discriminate.
  - apply negb_false_iff, Z.eqb_eq, Z.bits_inj'. intros k Hk.
    rewrite Z.land_spec, Z.bits_0, one_UL_shl_testbit by exact Hn.
    destruct (decide (n = k)) as [->|Hne].
    + rewrite Hbit. reflexivity.
    + rewrite (bool_decide_eq_false_2 _ Hne). apply andb_false_r.
Qed.

Lemma not_UL_testbit (x k : Z) :
  0 <= k < 64 -> Z.testbit (not_UL x) k = negb (Z.testbit x k).
Proof.
  intros Hk. unfold not_UL, ulong. rewrite wrap_testbit by exact Hk.
  apply Z.lnot_spec. lia.
Qed.

End Bits.

(** *** Replication state flags *)

Section FlagFacts.
Import Flags.

Lemma flag_value_range (flag : enum_state_flag) : 0 <= flag_value flag < 32.
Proof. destruct flag; simpl; lia. Qed.

Lemma flag_value_inj (f g : enum_state_flag) :
  flag_value f = flag_value g -> f = g.
Proof. destruct f, g; simpl; intros Hv; congruence. Qed.

Lemma get_flag_testbit (m : Z) (flag : enum_state_flag) :
  get_flag m flag = Z.testbit m (flag_value flag).
Proof.
  unfold get_flag. apply land_one_bit.
  pose proof (flag_value_range flag). lia.
Qed.

Lemma get_set_flag (m : Z) (f g : enum_state_flag) :
  get_flag (set_flag m f) g = get_flag m g || bool_decide (f = g).
Proof.
  pose proof (flag_value_range f) as Hf. pose proof (flag_value_range g) as Hg.
  rewrite !get_flag_testbit. unfold set_flag, uint32.
  rewrite wrap_testbit by lia.
  rewrite Z.lor_spec, one_UL_shl_testbit by lia.
  f_equal. apply bool_decide_ext. split.
  - apply flag_value_inj.
  - intros ->. reflexivity.
Qed.

Lemma get_clear_flag (m : Z) (f g : enum_state_flag) :
  get_flag (clear_flag m f) g = get_flag m g && negb (bool_decide (f = g)).
Proof.
  pose proof (flag_value_range f) as Hf. pose proof (flag_value_range g) as Hg.
  rewrite !get_flag_testbit. unfold clear_flag, uint32.
  rewrite wrap_testbit by lia.
  rewrite Z.land_spec, not_UL_testbit, one_UL_shl_testbit by lia.
  do 2 f_equal. apply bool_decide_ext. split.
  - apply flag_value_inj.
  - intros ->. reflexivity.
Qed.

(** C10. For every replication state flag [f] and every value of
    [m_flags]: after [set_flag(f)], [get_flag(f)] returns true; after
    [clear_flag(f)], [get_flag(f)] returns false; and both leave what
    [get_flag(g)] returns unchanged for every other flag [g]. *)
Theorem set_clear_flag_frame (m : Z) (f : enum_state_flag) :
  get_flag (set_flag m f) f = true /\
  get_flag (clear_flag m f) f = false /\
  forall g : enum_state_flag, g <> f ->
    get_flag (set_flag m f) g = get_flag m g /\
    get_flag (clear_flag m f) g = get_flag m g.
Proof.
  split; [|split].
  - rewrite get_set_flag, bool_decide_eq_true_2 by reflexivity.
    apply orb_true_r.
  - rewrite get_clear_flag, bool_decide_eq_true_2 by reflexivity.
    apply andb_false_r.
  - intros g Hne. rewrite get_set_flag, get_clear_flag.
    rewrite bool_decide_eq_false_2 by congruence.
    simpl. rewrite orb_false_r, andb_true_r. split; reflexivity.
Qed.

(** The flag word [0xFFFFFFFE] has every bit but [IN_STMT]'s set: setting
    and clearing [IN_STMT] is seen by [get_flag(IN_STMT)] and not by
    [get_flag(STATE_FLAGS_COUNT)]. *)
Lemma set_clear_flag_frame_witness :
  get_flag (set_flag 4294967294 IN_STMT) IN_STMT = true /\
  get_flag (clear_flag 4294967294 IN_STMT) IN_STMT = false /\
  get_flag (set_flag 4294967294 IN_STMT) STATE_FLAGS_COUNT = true /\
  get_flag (clear_flag 4294967294 IN_STMT) STATE_FLAGS_COUNT = true.
Proof.
  destruct (set_clear_flag_frame 4294967294 IN_STMT) as (Hs & Hc & Hframe).
  destruct (Hframe STATE_FLAGS_COUNT) as [Hs' Hc']; [discriminate|].
  rewrite Hs, Hc, Hs', Hc'. repeat split; reflexivity.
Defined.

End FlagFacts.

(** *** Recovery and parallel execution *)

Section MtsFacts.
Import Mts.

Variable cfg : build.

Lemma DBUG_ASSERT_holds (cond : bool) :
  cond = true -> DBUG_ASSERT cfg cond = Ok tt.
Proof.
  intros ->. unfold DBUG_ASSERT. rewrite andb_false_r. reflexivity.
Qed.

Lemma DBUG_ASSERT_release (cond : bool) :
  dbug_on cfg = false -> DBUG_ASSERT cfg cond = Ok tt.
Proof. intros Hoff. unfold DBUG_ASSERT. rewrite Hoff. reflexivity. Qed.

Lemma DBUG_ASSERT_inv (cond : bool) (e : failure) :
  DBUG_ASSERT cfg cond = Fail e ->
  e = AssertionFailed /\ dbug_on cfg = true /\ cond = false.
Proof.
  unfold DBUG_ASSERT. destruct (dbug_on cfg), cond; simpl; intros Hf;
    inversion Hf; auto.
Qed.

Lemma is_mts_recovery_spec (r : rli) :
  is_mts_recovery r = true <-> mts_recovery_group_cnt r <> 0.
Proof.
  unfold is_mts_recovery. rewrite negb_true_iff. apply Z.eqb_neq.
Qed.

Lemma is_parallel_exec_value (r : rli) (b : bool) :
  is_parallel_exec cfg r = Ok b ->
  b = (0 <? slave_parallel_workers r) && negb (is_mts_recovery r).
Proof.
  unfold is_parallel_exec. cbv zeta.
  destruct (DBUG_ASSERT cfg _) as [[]|e]; simpl; intros Hr;
    inversion Hr; reflexivity.
Qed.

(** Once the recovery bitmap is discarded, no recovery is pending. *)
Lemma clear_mts_recovery_groups_ends_recovery (r : rli) :
  recovery_groups_inited r = true ->
  is_mts_recovery (clear_mts_recovery_groups r) = false.
Proof.
  intros Hinit. unfold clear_mts_recovery_groups. rewrite Hinit. reflexivity.
Qed.

(** C3. [is_mts_recovery()] returns true exactly when
    [mts_recovery_group_cnt] is not zero; whenever [is_parallel_exec()]
    returns, it returns true exactly when [slave_parallel_workers] is
    positive and recovery is not active, and it does return in a build
    without debug assertions or when the array of workers is not empty;
    while recovery is active it returns false, in every build. *)
Theorem recovery_excludes_parallel_exec (r : rli) :
  (is_mts_recovery r = true <-> mts_recovery_group_cnt r <> 0) /\
  (forall b : bool, is_parallel_exec cfg r = Ok b ->
     (b = true <->
      0 < slave_parallel_workers r /\ is_mts_recovery r = false)) /\
  (dbug_on cfg = false \/ 0 < workers_elements r ->
     exists b : bool, is_parallel_exec cfg r = Ok b) /\
  (is_mts_recovery r = true -> is_parallel_exec cfg r = Ok false).
Proof.
  split; [apply is_mts_recovery_spec|]. split; [|split].
  - intros b Hb. apply is_parallel_exec_value in Hb. subst b.
    rewrite andb_true_iff, negb_true_iff, Z.ltb_lt. reflexivity.
  - intros Hbuild. unfold is_parallel_exec. cbv zeta.
    destruct Hbuild as [Hoff|Hworkers].
    + rewrite DBUG_ASSERT_release by exact Hoff. eexists. reflexivity.
    + rewrite DBUG_ASSERT_holds.
      * eexists. reflexivity.
      * apply orb_true_iff. right. apply Z.ltb_lt. exact Hworkers.
  - intros Hrec. unfold is_parallel_exec. cbv zeta. rewrite Hrec.
    rewrite andb_false_r. simpl. rewrite DBUG_ASSERT_holds by reflexivity.
    reflexivity.
Qed.

End MtsFacts.

(** A debug build with four configured workers, an empty worker array and
    three gap groups left: recovery is active, and parallel execution is
    off. *)
Lemma recovery_excludes_parallel_exec_witness :
  let cfg := Build true true 1 in
  let r := Mts.Rli 0 4 true 3 Mts.MTS_NOT_IN_GROUP in
  Mts.is_mts_recovery r = true /\ Mts.is_parallel_exec cfg r = Ok false.
Proof.
  intros cfg r.
  destruct (recovery_excludes_parallel_exec cfg r) as (Hrec & _ & _ & Hoff).
  assert (Hactive : Mts.is_mts_recovery r = true).
  { apply Hrec. simpl. lia. }
  split; [exact Hactive | exact (Hoff Hactive)].
Defined.

(** *** The coordinator's group status *)

Section CoordinatorFacts.
Import Mts Coordinator.





Lemma run_status_app (evs evs' : list coordinator_event) :
  forall st : mts_group_status_t,
    run_status st (evs ++ evs')
    = match run_status st evs with
      | Some st' => run_status st' evs'
      | None => None
      end.
Proof.
  induction evs as [|ev evs IH]; intros st; cbn; [reflexivity|].
  destruct (next_status st ev) as [st'|]; [apply IH | reflexivity].
Qed.










End CoordinatorFacts.

(** *** Reference-counted chains and [cleanup_group] *)

Section HeapFacts.
Import Dep.

Lemma drop_add_ref (w : Log_event_wrapper) : drop_ref (add_ref w) = w.
Proof.
  destruct w as [nx c]. unfold drop_ref, add_ref. simpl.
  rewrite Pos.pred_succ. reflexivity.
Qed.

Lemma add_ref_not_last (w : Log_event_wrapper) :
  bool_decide (use_count (add_ref w) = 1%positive) = false.
Proof. apply bool_decide_eq_false. simpl. apply Pos.succ_not_1. Qed.

Lemma sp_copy_comm (h : heap) (p q : option loc) :
  sp_copy (sp_copy h p) q = sp_copy (sp_copy h q) p.
Proof.
  destruct p as [l|], q as [l'|]; simpl; try reflexivity.
  destruct (decide (l' = l)) as [->|Hne]; [reflexivity|].
  apply alter_alter_ne. exact Hne.
Qed.

Lemma sp_release_null (depth : nat) (h : heap) :
  sp_release depth h None = Ok h.
Proof. destruct depth; reflexivity. Qed.

(** A copy that is destroyed again leaves the store as it was, whatever
    the depth of the stack. *)
Lemma sp_release_copy (depth : nat) (h : heap) (p : option loc) :
  sp_release depth (sp_copy h p) p = Ok h.
Proof.
  destruct p as [l|]; [|destruct depth; reflexivity].
  assert (Hback : alter drop_ref l (alter add_ref l h) = h).
  { rewrite alter_alter_eq. apply alter_id. intros w _. apply drop_add_ref. }
  destruct depth; cbn [sp_release sp_copy]; rewrite lookup_alter_eq;
    (destruct (h !! l) as [w|] eqn:Hl; cbn [fmap option_fmap option_map];
     [ rewrite add_ref_not_last, Hback; reflexivity
     | rewrite alter_id' by exact Hl; reflexivity ]).
Qed.

(** Destroying a pointer to an object whose own link is null takes one
    destructor call at most. *)
Lemma sp_release_leaf (depth : nat) (h : heap) (l : loc) :
  (forall w, h !! l = Some w -> next_ev w = None) ->
  sp_release (S depth) h (Some l) = Ok (unlink h l).
Proof.
  intros Hleaf. simpl. unfold unlink.
  destruct (h !! l) as [w|] eqn:Hl; [|reflexivity].
  destruct (bool_decide (use_count w = 1%positive)); [|reflexivity].
  rewrite (Hleaf w eq_refl). destruct depth; reflexivity.
Qed.

Lemma chain_det (h : heap) (p : option loc) (ls ls' : list loc) :
  chain h p ls -> chain h p ls' -> ls = ls'.
Proof.
  intros Hc. revert ls'. induction Hc as [|l w ls Hl Hc IH]; intros ls' Hc'.
  - inversion Hc'. reflexivity.
  - inversion Hc' as [|l' w' ls'' Hl' Hc'' Heq]; subst.
    assert (w' = w) by congruence. subst w'.
    f_equal. apply IH. exact Hc''.
Qed.

Lemma chain_from_member (h : heap) (p : option loc) (ls : list loc) (x : loc) :
  chain h p ls -> x ∈ ls ->
  exists ls', chain h (Some x) ls' /\ (length ls' <= length ls)%nat.
Proof.
  intros Hc. induction Hc as [|l w ls Hl Hc IH]; intros Hx.
  - apply elem_of_nil in Hx. contradiction.
  - apply elem_of_cons in Hx. destruct Hx as [->|Hx].
    + exists (l :: ls). split; [econstructor; eassumption | reflexivity].
    + destruct (IH Hx) as (ls' & Hc' & Hlen).
      exists ls'. split; [exact Hc' | simpl; lia].
Qed.

(** A chain that reaches its end visits no object twice. *)
Lemma chain_NoDup (h : heap) (p : option loc) (ls : list loc) :
  chain h p ls -> NoDup ls.
Proof.
  intros Hc. induction Hc as [|l w ls Hl Hc IH]; constructor; [|exact IH].
  intros Hin.
  destruct (chain_from_member _ _ _ _ Hc Hin) as (ls' & Hc' & Hlen).
  assert (Heq : ls' = l :: ls).
  { eapply chain_det; [exact Hc'|]. econstructor; eassumption. }
  subst ls'. simpl in Hlen. lia.
Qed.

(** The first loop leaves the store as the caller had it and the stack
    holding the chain, last event on top. *)
Lemma collect_events_chain (depth : nat) (h : heap) (p : option loc)
  (ls : list loc) :
  chain h p ls ->
  forall (fuel : nat) (events : list loc),
    (length ls <= fuel)%nat ->
    collect_events fuel depth (sp_copy h p) p events
    = Ok (h, rev ls ++ events).
Proof.
  intros Hc. induction Hc as [|l w ls Hl Hc IH]; intros fuel events Hfuel.
  - destruct fuel; reflexivity.
  - destruct fuel as [|fuel]; [simpl in Hfuel; lia|].
    cbn [collect_events]. cbn [sp_copy]. rewrite lookup_alter_eq, Hl. simpl.
    change (alter add_ref l h) with (sp_copy h (Some l)).
    rewrite sp_copy_comm, sp_release_copy. simpl.
    rewrite IH by (simpl in Hfuel; lia).
    rewrite <- app_assoc. reflexivity.
Qed.

Lemma unlink_alter_ne (f : Log_event_wrapper -> Log_event_wrapper) (h : heap)
  (l n : loc) :
  n <> l -> unlink (alter f l h) n = alter f l (unlink h n).
Proof.
  intros Hne. unfold unlink. rewrite lookup_alter_ne by congruence.
  destruct (h !! n) as [w|]; [|reflexivity].
  destruct (bool_decide (use_count w = 1%positive)).
  - rewrite delete_alter_ne by exact Hne. reflexivity.
  - apply alter_alter_ne. exact Hne.
Qed.

Lemma reset_links_app (depth : nat) (ls ls' : list loc) :
  forall h : heap,
    reset_links depth h (ls ++ ls')
    = h' ← reset_links depth h ls; reset_links depth h' ls'.
Proof.
  induction ls as [|l ls IH]; intros h; [reflexivity|].
  cbn [reset_links app]. destruct (h !! l) as [w|]; [|apply IH].
  destruct (sp_release depth _ (next_ev w)) as [h3|e]; [|reflexivity].
  cbn [mbind result_bind].
  destruct (sp_release depth h3 (Some l)) as [h4|e]; [|reflexivity].
  apply IH.
Qed.

(** What the second loop does to an object whose link is already null or
    points to an object that was dealt with: the link is reset, and the
    object it pointed to loses the owner that the link was. *)
Lemma reset_links_one (depth : nat) (h : heap) (l : loc)
  (w : Log_event_wrapper) :
  h !! l = Some w ->
  (forall n wn, next_ev w = Some n -> n <> l /\
     (h !! n = Some wn -> next_ev wn = None)) ->
  reset_links (S depth) h [l]
  = Ok (alter reset_next_ev l
          (match next_ev w with Some n => unlink h n | None => h end)).
Proof.
  intros Hl Hnext. cbn [reset_links]. rewrite Hl.
  assert (Hswap : alter reset_next_ev l (sp_copy h (Some l))
                  = sp_copy (alter reset_next_ev l h) (Some l)).
  { cbn [sp_copy]. rewrite !alter_alter_eq. apply alter_ext.
    intros [nx c] _. reflexivity. }
  rewrite Hswap. destruct (next_ev w) as [n|] eqn:Hn.
  - destruct (Hnext n) with (wn := w) as [Hne _]; [reflexivity|].
    rewrite sp_release_leaf.
    + cbn [mbind result_bind]. cbn [sp_copy].
      rewrite !unlink_alter_ne by exact Hne.
      change (alter add_ref l ?m) with (sp_copy m (Some l)).
      rewrite sp_release_copy. reflexivity.
    + intros wn. cbn [sp_copy]. rewrite !lookup_alter_ne by congruence.
      intros Hwn. eapply Hnext; [reflexivity | exact Hwn].
  - rewrite sp_release_null. cbn [mbind result_bind].
    rewrite sp_release_copy. reflexivity.
Qed.

Lemma lookup_release_node (h : heap) (l x : loc) :
  release_node l h !! x
  = if decide (x = l) then h !! l ≫= released else h !! x.
Proof.
  unfold release_node, unlink. rewrite lookup_alter_eq.
  destruct (decide (x = l)) as [->|Hne].
  - destruct (h !! l) as [w|] eqn:Hl; cbn [fmap option_fmap option_map].
    + unfold released. cbn [mbind option_bind reset_next_ev use_count].
      destruct (bool_decide (use_count w = 1%positive)).
      * apply lookup_delete_eq.
      * rewrite lookup_alter_eq, lookup_alter_eq, Hl. reflexivity.
    + rewrite lookup_alter_eq, Hl. reflexivity.
  - destruct (h !! l) as [w|] eqn:Hl; cbn [fmap option_fmap option_map].
    + cbn [reset_next_ev use_count].
      destruct (bool_decide (use_count w = 1%positive)).
      * rewrite lookup_delete_ne, lookup_alter_ne by congruence. reflexivity.
      * rewrite !lookup_alter_ne by congruence. reflexivity.
    + rewrite lookup_alter_ne by congruence. reflexivity.
Qed.

Lemma lookup_release_nodes (h : heap) (ls : list loc) (x : loc) :
  NoDup ls ->
  foldr release_node h ls !! x
  = if decide (x ∈ ls) then h !! x ≫= released else h !! x.
Proof.
  induction 1 as [|l ls Hnotin Hnd IH]; cbn [foldr].
  - rewrite decide_False by apply not_elem_of_nil. reflexivity.
  - rewrite lookup_release_node. destruct (decide (x = l)) as [->|Hne].
    + rewrite decide_True by apply list_elem_of_here.
      rewrite IH, decide_False by exact Hnotin. reflexivity.
    + rewrite IH. destruct (decide (x ∈ ls)) as [Hin|Hout].
      * rewrite decide_True by (apply list_elem_of_further; exact Hin).
        reflexivity.
      * rewrite decide_False; [reflexivity|].
        intros Hin. apply elem_of_cons in Hin. tauto.
Qed.

(** The second loop on the stack that the first loop built. *)
Lemma reset_links_chain (depth : nat) (h : heap) (ls : list loc) :
  forall l : loc,
    chain h (Some l) (l :: ls) ->
    reset_links (S depth) h (rev (l :: ls))
    = Ok (alter reset_next_ev l (foldr release_node h ls)).
Proof.
  induction ls as [|n ls IH]; intros l Hc.
  - inversion Hc as [|l' w ls' Hl Hrest]; subst.
    inversion Hrest as [Hnone|]; subst.
    cbn [rev app foldr]. rewrite (reset_links_one depth h l w Hl).
    + rewrite <- Hnone. reflexivity.
    + intros n wn Hn. congruence.
  - pose proof (chain_NoDup _ _ _ Hc) as Hnd.
    inversion Hc as [|l' w ls' Hl Hrest]; subst.
    inversion Hrest as [|n' wn ls' Hn Hrest' Hnext]; subst.
    rewrite <- Hnext in Hrest.
    change (rev (l :: n :: ls)) with (rev (n :: ls) ++ [l]).
    rewrite reset_links_app, (IH n Hrest). cbn [mbind result_bind].
    apply NoDup_cons in Hnd as [Hl_notin Hnd].
    assert (Hne : l <> n).
    { intros ->. apply Hl_notin, list_elem_of_here. }
    assert (Hl_rest : l ∉ ls).
    { intros Hin. apply Hl_notin, list_elem_of_further, Hin. }
    apply NoDup_cons in Hnd as [Hn_notin Hnd].
    erewrite reset_links_one.
    + rewrite <- Hnext. cbn [foldr]. unfold release_node at 2. reflexivity.
    + rewrite lookup_alter_ne by congruence.
      rewrite lookup_release_nodes, decide_False by assumption. exact Hl.
    + intros n' wn' Hn'. rewrite <- Hnext in Hn'. inversion Hn'; subst n'.
      split; [congruence|]. rewrite lookup_alter_eq.
      destruct (foldr release_node h ls !! n) as [w0|];
        cbn [fmap option_fmap option_map]; intros Hw0; inversion Hw0.
      reflexivity.
Qed.

Lemma cleanup_group_chain (cfg : build) (h : heap) (begin_event : option loc)
  (ls : list loc) (fuel : nat) :
  (1 <= dtor_depth cfg)%nat -> chain h begin_event ls ->
  (length ls <= fuel)%nat ->
  collect_events fuel (dtor_depth cfg) (sp_copy h begin_event) begin_event []
  = Ok (h, rev ls) /\
  cleanup_group fuel cfg h begin_event = Ok (cleared h ls).
Proof.
  intros Hdepth Hc Hfuel.
  pose proof (collect_events_chain (dtor_depth cfg) _ _ _ Hc fuel [] Hfuel)
    as Hcollect.
  rewrite app_nil_r in Hcollect. split; [exact Hcollect|].
  unfold cleanup_group. rewrite Hcollect. cbn [mbind result_bind].
  destruct (dtor_depth cfg) as [|depth]; [lia|].
  destruct Hc as [|l w ls Hl Hrest]; [reflexivity|].
  apply reset_links_chain. econstructor; eassumption.
Qed.

Lemma lookup_cleared (h : heap) (ls : list loc) (x : loc) :
  NoDup ls ->
  cleared h ls !! x
  = if decide (Some x = head ls) then reset_next_ev <$> h !! x
    else if decide (x ∈ ls) then h !! x ≫= released
    else h !! x.
Proof.
  intros Hnd. destruct ls as [|l rest]; cbn [cleared head].
  - rewrite decide_False by discriminate.
    rewrite decide_False by apply not_elem_of_nil. reflexivity.
  - apply NoDup_cons in Hnd as [Hl Hnd].
    destruct (decide (Some x = Some l)) as [Heq|Hne].
    + inversion Heq; subst x. rewrite lookup_alter_eq.
      rewrite lookup_release_nodes, decide_False by assumption. reflexivity.
    + assert (Hxl : l <> x) by congruence.
      rewrite lookup_alter_ne by exact Hxl.
      rewrite lookup_release_nodes by exact Hnd.
      destruct (decide (x ∈ rest)) as [Hin|Hout].
      * rewrite decide_True by (apply list_elem_of_further; exact Hin).
        reflexivity.
      * rewrite decide_False; [reflexivity|].
        intros Hin. apply elem_of_cons in Hin as [->|Hin]; contradiction.
Qed.

Lemma lookup_cleared_outside (h : heap) (ls : list loc) (x : loc) :
  NoDup ls -> x ∉ ls -> cleared h ls !! x = h !! x.
Proof.
  intros Hnd Hx. rewrite lookup_cleared by exact Hnd.
  rewrite decide_False.
  - rewrite decide_False by exact Hx. reflexivity.
  - intros Hhd. apply Hx. destruct ls as [|l rest]; [discriminate|].
    inversion Hhd; subst. apply list_elem_of_here.
Qed.

Lemma cleared_alive (h : heap) (ls : list loc) (x : loc) :
  NoDup ls -> is_Some (cleared h ls !! x) -> is_Some (h !! x).
Proof.
  intros Hnd. rewrite lookup_cleared by exact Hnd.
  destruct (h !! x) as [w|]; [eauto|].
  repeat case_decide; cbn; intros [w Hw]; discriminate.
Qed.

(** A chain does not depend on the objects outside it. *)
Lemma chain_frame (h h' : heap) (p : option loc) (ls : list loc) :
  (forall x, x ∈ ls -> h' !! x = h !! x) -> chain h p ls -> chain h' p ls.
Proof.
  intros Hsame Hc. induction Hc as [|l w ls Hl Hc IH]; [constructor|].
  econstructor.
  - rewrite Hsame by apply list_elem_of_here. exact Hl.
  - apply IH. intros x Hx. apply Hsame, list_elem_of_further, Hx.
Qed.

Lemma chains_frame (h h' : heap) (queue : list (option loc))
  (groups : list (list loc)) :
  (forall x, x ∈ mjoin groups -> h' !! x = h !! x) ->
  Forall2 (chain h) queue groups -> Forall2 (chain h') queue groups.
Proof.
  intros Hsame Hchains. induction Hchains as [|p ls queue groups Hc _ IH];
    constructor.
  - eapply chain_frame; [|exact Hc]. intros x Hx. apply Hsame.
    cbn [mjoin list_join]. apply elem_of_app. left. exact Hx.
  - apply IH. intros x Hx. apply Hsame.
    cbn [mjoin list_join]. apply elem_of_app. right. exact Hx.
Qed.

Lemma alive_size (h h' : heap) :
  (forall x, is_Some (h' !! x) -> is_Some (h !! x)) ->
  (size h' <= size h)%nat.
Proof.
  intros Halive. apply dom_subseteq_size. intros x.
  rewrite !elem_of_dom. apply Halive.
Qed.

(** With a stack as deep as there are objects alive, destroying a pointer
    returns, and resurrects nothing. *)
Lemma sp_release_total (depth : nat) :
  forall (h : heap) (p : option loc),
    (size h <= depth)%nat ->
    exists h' : heap,
      sp_release depth h p = Ok h' /\
      (forall x, is_Some (h' !! x) -> is_Some (h !! x)).
Proof.
  induction depth as [|depth IH]; intros h p Hsize.
  - assert (h = ∅) as -> by (apply map_size_empty_inv; lia).
    exists ∅. split; [|auto]. destruct p as [l|]; [|reflexivity].
    cbn [sp_release]. rewrite lookup_empty. reflexivity.
  - destruct p as [l|]; [|exists h; auto].
    cbn [sp_release]. destruct (h !! l) as [w|] eqn:Hl; [|exists h; auto].
    case_bool_decide as Hlast.
    + destruct (IH (delete l h) (next_ev w)) as (h' & Hrun & Halive).
      { rewrite map_size_delete_Some by eauto.
        assert (size h <> 0)%nat by (apply map_size_ne_0_lookup_2 with l; eauto).
        lia. }
      exists h'. split; [exact Hrun|].
      intros x Hx. apply Halive in Hx.
      rewrite lookup_delete_is_Some in Hx. tauto.
    + exists (alter drop_ref l h). split; [reflexivity|].
      intros x Hx. apply lookup_alter_is_Some in Hx. exact Hx.
Qed.

Lemma sp_release_all_total (depth : nat) (ps : list (option loc)) :
  forall h : heap,
    (size h <= depth)%nat ->
    exists h' : heap,
      sp_release_all depth h ps = Ok h' /\
      (forall x, is_Some (h' !! x) -> is_Some (h !! x)).
Proof.
  induction ps as [|p ps IH]; intros h Hsize; [exists h; auto|].
  cbn [sp_release_all].
  destruct (sp_release_total depth h p Hsize) as (h1 & Hrun & Halive).
  rewrite Hrun. cbn [mbind result_bind].
  destruct (IH h1) as (h2 & Hrun2 & Halive2).
  { pose proof (alive_size _ _ Halive). lia. }
  exists h2. split; [exact Hrun2 | auto].
Qed.

(** The loop over the queue returns when the pending groups are chains
    without a common event. *)
Lemma cleanup_groups_total (fuel : nat) (cfg : build)
  (groups : list (list loc)) :
  forall (h : heap) (queue : list (option loc)),
    (1 <= dtor_depth cfg)%nat ->
    Forall2 (chain h) queue groups ->
    NoDup (mjoin groups) ->
    Forall (fun ls => (length ls <= fuel)%nat) groups ->
    exists h' : heap,
      cleanup_groups fuel cfg h queue = Ok h' /\
      (forall x, is_Some (h' !! x) -> is_Some (h !! x)).
Proof.
  induction groups as [|ls groups IH]; intros h queue Hdepth Hchains Hnd Hfuel.
  - apply Forall2_nil_inv_r in Hchains. subst queue. exists h. auto.
  - apply Forall2_cons_inv_r in Hchains
      as (begin_event & queue' & Hc & Hchains & ->).
    cbn [mjoin list_join] in Hnd. apply NoDup_app in Hnd as (Hnd_ls & Hdisj & Hnd).
    apply Forall_cons in Hfuel as [Hlen Hfuel].
    cbn [cleanup_groups].
    destruct (cleanup_group_chain cfg h begin_event ls fuel Hdepth Hc Hlen)
      as [_ Hrun].
    rewrite Hrun. cbn [mbind result_bind].
    destruct (IH (cleared h ls) queue' Hdepth) as (h' & Hrun' & Halive).
    + eapply chains_frame; [|exact Hchains].
      intros x Hx. apply lookup_cleared_outside; [exact Hnd_ls|].
      intros Hx_ls. exact (Hdisj x Hx_ls Hx).
    + exact Hnd.
    + exact Hfuel.
    + exists h'. split; [exact Hrun'|].
      intros x Hx. apply Halive in Hx.
      eapply cleared_alive; [exact Hnd_ls | exact Hx].
Qed.

(** What [cleanup_group] is there to avoid: destroying the only pointer
    to the first event of a group that nobody else owns runs one destructor
    inside the other along the whole chain, and exhausts a stack that is
    not as deep as the group is long. *)
Lemma sp_release_chain_overflows (ls : list loc) :
  forall (h : heap) (p : option loc) (depth : nat),
    chain h p ls ->
    (forall x, x ∈ ls ->
       exists w, h !! x = Some w /\ use_count w = 1%positive) ->
    (depth < length ls)%nat ->
    sp_release depth h p = Fail StackExhausted.
Proof.
  induction ls as [|l ls IH]; intros h p depth Hc Hsole Hdepth;
    [cbn in Hdepth; lia|].
  pose proof (chain_NoDup _ _ _ Hc) as Hnd.
  apply NoDup_cons in Hnd as [Hl_notin _].
  inversion Hc as [|l' w ls' Hl Hrest]; subst.
  destruct (Hsole l) as (w' & Hl' & Hcount); [apply list_elem_of_here|].
  assert (w' = w) by congruence. subst w'.
  destruct depth as [|depth]; cbn [sp_release]; rewrite Hl;
    rewrite bool_decide_eq_true_2 by exact Hcount; [reflexivity|].
  assert (Hsame : forall x, x ∈ ls -> delete l h !! x = h !! x).
  { intros x Hx. apply lookup_delete_ne. intros ->. contradiction. }
  apply IH.
  - eapply chain_frame; [exact Hsame | exact Hrest].
  - intros x Hx. rewrite Hsame by exact Hx.
    apply Hsole, list_elem_of_further, Hx.
  - cbn [length] in Hdepth. lia.
Qed.

(** C6. For a chain [ls] of event wrappers that starts at [begin_event] and
    ends in a null link (so it is finite and visits no object twice), and a
    stack that fits one nested destructor call: with a loop budget of the
    chain's length or more, the first loop returns with the chain on the
    explicit stack, last event on top, and [cleanup_group] returns a store
    [h'], whatever the length of the chain.  In [h'] every object of the
    chain that is still alive has a null [next_ev]; objects outside the chain
    are as they were; every object after the first has lost the owner that
    its predecessor's link was (it is destroyed if that was its only owner);
    and the first object keeps its owners. *)
Theorem cleanup_group_releases_chain (cfg : build) (h : heap)
  (begin_event : option loc) (ls : list loc) :
  (1 <= dtor_depth cfg)%nat ->
  chain h begin_event ls ->
  exists h' : heap,
    (forall fuel : nat, (length ls <= fuel)%nat ->
       collect_events fuel (dtor_depth cfg) (sp_copy h begin_event)
         begin_event [] = Ok (h, rev ls) /\
       cleanup_group fuel cfg h begin_event = Ok h') /\
    (forall (x : loc) (w : Log_event_wrapper),
       x ∈ ls -> h' !! x = Some w -> next_ev w = None) /\
    (forall x : loc, x ∉ ls -> h' !! x = h !! x) /\
    (forall x : loc, x ∈ tail ls -> h' !! x = h !! x ≫= released) /\
    (forall l : loc,
       begin_event = Some l -> h' !! l = reset_next_ev <$> h !! l).
Proof.
  intros Hdepth Hc. pose proof (chain_NoDup _ _ _ Hc) as Hnd.
  exists (cleared h ls). split; [|split; [|split; [|split]]].
  - intros fuel Hfuel. apply cleanup_group_chain; assumption.
  - intros x w Hx. rewrite lookup_cleared by exact Hnd.
    rewrite (decide_True _ _ Hx).
    destruct (h !! x) as [w0|]; [|case_decide; discriminate].
    case_decide; cbn; [intros Hw; inversion Hw; reflexivity|].
    unfold released. case_bool_decide; intros Hw; inversion Hw. reflexivity.
  - intros x Hx. apply lookup_cleared_outside; assumption.
  - intros x Hx. rewrite lookup_cleared by exact Hnd.
    destruct ls as [|l rest]; [apply elem_of_nil in Hx; contradiction|].
    cbn [tail head] in *. apply NoDup_cons in Hnd as [Hl _].
    rewrite decide_False by (intros Heq; inversion Heq; subst; contradiction).
    rewrite decide_True by (apply list_elem_of_further; exact Hx).
    reflexivity.
  - intros l ->. rewrite lookup_cleared by exact Hnd.
    inversion Hc; subst. cbn [head].
    rewrite decide_True by reflexivity. reflexivity.
Qed.

End HeapFacts.

(** A group of three events, the first owned by the queue alone, the second
    by the first's link alone, the third by the second's link and by the key
    map: after [cleanup_group] the second is gone and the other two are
    alive, with one owner each and no link. *)
Lemma cleanup_group_releases_chain_witness :
  let cfg := Build true true 1 in
  let h : gmap Dep.loc Dep.Log_event_wrapper :=
    <[1%positive := Dep.Wrapper (Some 2%positive) 1]>
      (<[2%positive := Dep.Wrapper (Some 3%positive) 1]>
         (<[3%positive := Dep.Wrapper None 2]> ∅)) in
  exists h' : gmap Dep.loc Dep.Log_event_wrapper,
    Dep.cleanup_group 3 cfg h (Some 1%positive) = Ok h' /\
    h' !! 1%positive = Some (Dep.Wrapper None 1) /\
    h' !! 2%positive = None /\
    h' !! 3%positive = Some (Dep.Wrapper None 1) /\
    h' !! 4%positive = None.
Proof.
  intros cfg h.
  destruct (cleanup_group_releases_chain cfg h (Some 1%positive)
              [1%positive; 2%positive; 3%positive])
    as (h' & Hrun & _ & Hframe & Htail & Hhead).
  - simpl. lia.
  - eapply Dep.chain_link; [reflexivity|].
    eapply Dep.chain_link; [reflexivity|].
    eapply Dep.chain_link; [reflexivity|].
    apply Dep.chain_end.
  - exists h'. split; [apply Hrun; simpl; lia|].
    rewrite (Hhead 1%positive eq_refl).
    rewrite (Htail 2%positive), (Htail 3%positive)
      by (simpl; rewrite !elem_of_cons; auto).
    rewrite (Hframe 4%positive)
      by (rewrite !not_elem_of_cons; repeat split;
          [discriminate .. | apply not_elem_of_nil]).
    repeat split; reflexivity.
Defined.

(** *** The dependency queue *)

Section ResultFacts.

Lemma bind_Ok_inv {A B : Type} (m : result A) (f : A -> result B) (b : B) :
  m ≫= f = Ok b -> exists a : A, m = Ok a /\ f a = Ok b.
Proof.
  destruct m as [a|e]; cbn [mbind result_bind]; [|discriminate].
  intros Hf. exists a. split; [reflexivity | exact Hf].
Qed.

End ResultFacts.

Ltac bind_inv H x Hx :=
  apply bind_Ok_inv in H; destruct H as (x & Hx & H).

Section TrackerFacts.
Import Dep.

Context {Dependency_key : Type} `{Countable Dependency_key}.
Variable cfg : build.
Variable self : thread_id.

Implicit Type s : tracker Dependency_key.

Lemma assert_owner_held (m : mutex) :
  m = Some self -> mysql_mutex_assert_owner cfg self m = Ok tt.
Proof.
  intros ->. unfold mysql_mutex_assert_owner.
  rewrite bool_decide_eq_true_2 by reflexivity.
  rewrite andb_false_r. reflexivity.
Qed.

Lemma assert_owner_inv (m : mutex) (e : failure) :
  mysql_mutex_assert_owner cfg self m = Fail e ->
  e = AssertionFailed /\ safe_mutex cfg = true /\ m <> Some self.
Proof.
  unfold mysql_mutex_assert_owner.
  destruct (safe_mutex cfg); cbn [andb]; [|discriminate].
  case_bool_decide as Hm; cbn [negb]; [discriminate|].
  intros Hf. inversion Hf. auto.
Qed.

Lemma enqueue_dep_held (ev : option loc) s :
  dep_lock s = Some self ->
  enqueue_dep cfg self ev s
  = Ok (true, with_queue s (dep_queue s ++ [ev]) (sp_copy (wrappers s) ev)).
Proof.
  intros Hlock. unfold enqueue_dep.
  rewrite assert_owner_held by exact Hlock. reflexivity.
Qed.

Lemma dequeue_dep_held s :
  dep_lock s = Some self ->
  dequeue_dep cfg self s
  = Ok (match dep_queue s with
        | [] => (None, s)
        | front :: rest => (front, with_queue s rest (wrappers s))
        end).
Proof.
  intros Hlock. unfold dequeue_dep.
  rewrite assert_owner_held by exact Hlock. cbn [mbind result_bind].
  destruct (dep_queue s) as [|front rest]; [reflexivity|].
  rewrite sp_release_copy. reflexivity.
Qed.

Lemma enqueue_all_held (evs : list (option loc)) :
  forall s, dep_lock s = Some self ->
    exists s', enqueue_all cfg self evs s = Ok s' /\
               dep_queue s' = dep_queue s ++ evs /\
               dep_lock s' = Some self.
Proof.
  induction evs as [|ev evs IH]; intros s Hlock.
  - exists s. rewrite app_nil_r. auto.
  - cbn [enqueue_all]. rewrite enqueue_dep_held by exact Hlock.
    cbn [mbind result_bind].
    destruct (IH (with_queue s (dep_queue s ++ [ev])
                    (sp_copy (wrappers s) ev)) Hlock)
      as (s' & Hrun & Hq & Hl).
    exists s'. split; [exact Hrun|]. split; [|exact Hl].
    rewrite Hq. cbn [with_queue dep_queue]. rewrite <- app_assoc. reflexivity.
Qed.

Lemma dequeue_n_held (q : list (option loc)) :
  forall s, dep_lock s = Some self -> dep_queue s = q ->
    exists s', dequeue_n cfg self (length q) s = Ok (q, s') /\
               dep_queue s' = [] /\ wrappers s' = wrappers s.
Proof.
  induction q as [|front rest IH]; intros s Hlock Hq.
  - exists s. auto.
  - cbn [length dequeue_n]. rewrite dequeue_dep_held by exact Hlock.
    rewrite Hq. cbn [mbind result_bind].
    destruct (IH (with_queue s rest (wrappers s)) Hlock eq_refl)
      as (s' & Hrun & Hempty & Hw).
    exists s'. rewrite Hrun. auto.
Qed.

(** C4. With [dep_lock] held by the caller, in every state of the queue:
    on an empty queue [dequeue_dep()] returns the null pointer and leaves
    the tracker as it was; otherwise it returns the pointer at the front,
    which is the oldest one pending, and leaves the rest of the queue and
    the owners of every wrapper as they were.  Hence the groups enqueued
    after the ones already pending come out after them, all in the order of
    arrival. *)
Theorem dequeue_dep_fifo s :
  dep_lock s = Some self ->
  (dep_queue s = [] -> dequeue_dep cfg self s = Ok (None, s)) /\
  (forall (front : option loc) (rest : list (option loc)),
     dep_queue s = front :: rest ->
     exists s', dequeue_dep cfg self s = Ok (front, s') /\
                dep_queue s' = rest /\ wrappers s' = wrappers s) /\
  (forall evs : list (option loc),
     exists s1 s2,
       enqueue_all cfg self evs s = Ok s1 /\
       dep_queue s1 = dep_queue s ++ evs /\
       dequeue_n cfg self (length (dep_queue s ++ evs)) s1
       = Ok (dep_queue s ++ evs, s2) /\
       dep_queue s2 = []).
Proof.
  intros Hlock. split; [|split].
  - intros Hq. rewrite dequeue_dep_held, Hq by exact Hlock. reflexivity.
  - intros front rest Hq. rewrite dequeue_dep_held, Hq by exact Hlock.
    eexists. split; [reflexivity|]. split; reflexivity.
  - intros evs.
    destruct (enqueue_all_held evs s Hlock) as (s1 & Hrun & Hq & Hlock1).
    destruct (dequeue_n_held (dep_queue s ++ evs) s1 Hlock1 Hq)
      as (s2 & Hrun2 & Hempty & _).
    exists s1, s2. auto.
Qed.

(** C5. With [dep_lock] held by the caller, [enqueue_dep(begin_event)]
    returns true and the queue is the old one with [begin_event] at its
    tail.  It fails only by the assertion on the owner of [dep_lock], and
    then the caller does not hold the lock; whenever it returns, it returns
    true with the event appended. *)
Theorem enqueue_dep_appends (begin_event : option loc) s :
  (dep_lock s = Some self ->
   exists s', enqueue_dep cfg self begin_event s = Ok (true, s') /\
              dep_queue s' = dep_queue s ++ [begin_event]) /\
  (forall (e : failure),
     enqueue_dep cfg self begin_event s = Fail e ->
     e = AssertionFailed /\ dep_lock s <> Some self) /\
  (forall (r : bool) s', enqueue_dep cfg self begin_event s = Ok (r, s') ->
     r = true /\ dep_queue s' = dep_queue s ++ [begin_event]).
Proof.
  split; [|split].
  - intros Hlock. rewrite enqueue_dep_held by exact Hlock.
    eexists. split; reflexivity.
  - intros e. unfold enqueue_dep.
    destruct (mysql_mutex_assert_owner cfg self (dep_lock s)) as [[]|e']
      eqn:Hassert; cbn [mbind result_bind]; [discriminate|].
    intros He. inversion He; subst e'.
    apply assert_owner_inv in Hassert. tauto.
  - intros r s'. unfold enqueue_dep.
    destruct (mysql_mutex_assert_owner cfg self (dep_lock s)) as [[]|e'];
      cbn [mbind result_bind]; [|discriminate].
    intros Hr. inversion Hr. split; reflexivity.
Qed.

Lemma mutex_lock_inv (m m' : mutex) :
  mysql_mutex_lock self m = Ok m' -> m = None /\ m' = Some self.
Proof.
  destruct m; cbn [mysql_mutex_lock]; intros Hm; inversion Hm. auto.
Qed.

Lemma mutex_unlock_inv (m m' : mutex) :
  mysql_mutex_unlock self m = Ok m' -> m = Some self /\ m' = None.
Proof.
  unfold mysql_mutex_unlock. case_bool_decide as Hm; intros Hu;
    inversion Hu. auto.
Qed.

(** What [clear_dep] leaves behind when it returns. *)
Lemma clear_dep_inv (fuel : nat) (need_dep_lock : bool) s s' :
  clear_dep fuel cfg self need_dep_lock s = Ok s' ->
  dep_queue s' = [] /\
  dep_key_lookup s' = ∅ /\
  keys_accessed_by_group s' = ∅ /\
  dep_full s' = false /\
  dep_empty_cond s' = [] /\
  dep_full_cond s' = [] /\
  dep_trx_all_done_cond s' = [] /\
  woken s' = ((woken s ++ dep_empty_cond s) ++ dep_full_cond s)
             ++ dep_trx_all_done_cond s /\
  num_in_flight_trx s'
  = ulonglong (num_in_flight_trx s - Z.of_nat (length (dep_queue s))) /\
  dep_lock s' = (if need_dep_lock then None else dep_lock s) /\
  dep_key_lookup_mutex s' = None.
Proof.
  unfold clear_dep. intros Hrun.
  bind_inv Hrun lk Hlk. bind_inv Hrun u Hassert.
  cbv zeta in Hrun.
  bind_inv Hrun h1 Hh1. bind_inv Hrun h2 Hh2. bind_inv Hrun h3 Hh3.
  bind_inv Hrun h4 Hh4. cbn [mysql_cond_broadcast] in Hrun.
  bind_inv Hrun klk Hklk. bind_inv Hrun h5 Hh5.
  bind_inv Hrun klk' Hklk'. bind_inv Hrun lk' Hlk'.
  inversion Hrun; subst s'; clear Hrun. cbn.
  apply mutex_unlock_inv in Hklk' as [_ ->].
  repeat split; try reflexivity.
  destruct need_dep_lock.
  - apply mutex_unlock_inv in Hlk' as [_ ->]. reflexivity.
  - inversion Hlk'. inversion Hlk. congruence.
Qed.

Lemma mutex_unlock_own : mysql_mutex_unlock self (Some self) = Ok None.
Proof.
  unfold mysql_mutex_unlock.
  rewrite bool_decide_eq_true_2 by reflexivity. reflexivity.
Qed.

(** [clear_dep] returns from every state in which it can run. *)
Lemma clear_dep_returns (fuel : nat) (need_dep_lock : bool) s
  (groups : list (list loc)) :
  can_clear fuel cfg need_dep_lock s groups ->
  exists s', clear_dep fuel cfg self need_dep_lock s = Ok s'.
Proof.
  intros (Hlock & Hklock & Hassert & Hchains & Hnd & Hfuel & Hdepth & Hsize).
  unfold clear_dep.
  assert (Hlk : exists lk : mutex,
            (if need_dep_lock then mysql_mutex_lock self (dep_lock s)
             else Ok (dep_lock s)) = Ok lk /\
            (if need_dep_lock then mysql_mutex_unlock self lk else Ok lk)
            = Ok (if need_dep_lock then None else dep_lock s)).
  { destruct need_dep_lock.
    - rewrite Hlock by reflexivity. exists (Some self). split; [reflexivity|].
      apply mutex_unlock_own.
    - exists (dep_lock s). auto. }
  destruct Hlk as (lk & -> & Hunlock). cbn [mbind result_bind].
  assert (DBUG_ASSERT cfg
            (Z.of_nat (length (dep_queue s)) <=? num_in_flight_trx s)
          = Ok tt) as ->.
  { destruct Hassert as [Hoff|Hinv].
    - apply DBUG_ASSERT_release, Hoff.
    - apply DBUG_ASSERT_holds, Z.leb_le, Hinv. }
  cbn [mbind result_bind].
  destruct (cleanup_groups_total fuel cfg groups (wrappers s) (dep_queue s)
              Hdepth Hchains Hnd Hfuel) as (h1 & -> & Halive1).
  cbn [mbind result_bind]. pose proof (alive_size _ _ Halive1) as Hsize1.
  destruct (sp_release_all_total (dtor_depth cfg) (dep_queue s) h1)
    as (h2 & -> & Halive2); [lia|].
  cbn [mbind result_bind]. pose proof (alive_size _ _ Halive2) as Hsize2.
  destruct (sp_release_total (dtor_depth cfg) h2 (prev_event s))
    as (h3 & -> & Halive3); [lia|].
  cbn [mbind result_bind]. pose proof (alive_size _ _ Halive3) as Hsize3.
  destruct (sp_release_total (dtor_depth cfg) h3 (current_begin_event s))
    as (h4 & -> & Halive4); [lia|].
  cbn [mbind result_bind]. pose proof (alive_size _ _ Halive4) as Hsize4.
  cbn [mysql_cond_broadcast]. rewrite Hklock. cbn [mysql_mutex_lock mbind result_bind].
  destruct (sp_release_all_total (dtor_depth cfg)
              ((map_to_list (dep_key_lookup s)).*2) h4)
    as (h5 & -> & _); [lia|].
  cbn [mbind result_bind]. rewrite mutex_unlock_own.
  cbn [mbind result_bind]. rewrite Hunlock. cbn [mbind result_bind]. eexists. reflexivity.
Qed.

(** C7. When [clear_dep()] returns, the pending queue is empty, the map
    from keys to last writers is empty, [dep_full] is false, no thread waits
    on [dep_empty_cond], [dep_full_cond] or [dep_trx_all_done_cond] any
    more, and every thread that waited on one of them has been woken.  And
    it does return from every state in which it can run. *)
Theorem clear_dep_wakes_all (fuel : nat) (need_dep_lock : bool) s :
  (forall s', clear_dep fuel cfg self need_dep_lock s = Ok s' ->
     dep_queue s' = [] /\
     dep_key_lookup s' = ∅ /\
     dep_full s' = false /\
     dep_empty_cond s' = [] /\
     dep_full_cond s' = [] /\
     dep_trx_all_done_cond s' = [] /\
     (forall t : thread_id,
        t ∈ dep_empty_cond s \/ t ∈ dep_full_cond s \/
        t ∈ dep_trx_all_done_cond s -> t ∈ woken s')) /\
  (forall groups : list (list loc),
     can_clear fuel cfg need_dep_lock s groups ->
     exists s', clear_dep fuel cfg self need_dep_lock s = Ok s').
Proof.
  split; [|apply clear_dep_returns].
  intros s' Hrun. apply clear_dep_inv in Hrun
    as (Hq & Hk & _ & Hf & He & Hfc & Hd & Hw & _).
  repeat (split; [assumption|]).
  intros t Ht. rewrite Hw, !elem_of_app. tauto.
Qed.

(** C9. If [num_in_flight_trx] (an [ulonglong]) is at least the length of
    the pending queue when [clear_dep()] is called, then on return it has
    decreased by exactly that length, so the groups that were not in the
    queue are still counted, and it is still at least the length of the
    queue, which is empty by then.  And [clear_dep()] does return from
    every state in which it can run. *)
Theorem clear_dep_in_flight (fuel : nat) (need_dep_lock : bool) s :
  Z.of_nat (length (dep_queue s)) <= num_in_flight_trx s < 2 ^ 64 ->
  (forall s', clear_dep fuel cfg self need_dep_lock s = Ok s' ->
     num_in_flight_trx s'
     = num_in_flight_trx s - Z.of_nat (length (dep_queue s)) /\
     Z.of_nat (length (dep_queue s')) <= num_in_flight_trx s' < 2 ^ 64) /\
  (forall groups : list (list loc),
     can_clear fuel cfg need_dep_lock s groups ->
     exists s', clear_dep fuel cfg self need_dep_lock s = Ok s').
Proof.
  intros Hinv. split; [|apply clear_dep_returns].
  intros s' Hrun. apply clear_dep_inv in Hrun
    as (Hq & _ & _ & _ & _ & _ & _ & _ & Hn & _).
  rewrite Hq, Hn. unfold ulonglong. rewrite wrap_small by lia.
  cbn [length]. lia.
Qed.

End TrackerFacts.

(** The sample tracker, with a debug build whose stack fits one nested
    destructor call. *)

Lemma dequeue_dep_fifo_witness :
  let cfg := Build true true 1 in
  exists s' : Dep.tracker nat,
    Dep.dequeue_dep cfg 1%nat (Dep.sample_tracker (Some 1%nat))
    = Ok (Some 1%positive, s') /\
    Dep.dequeue_n cfg 1%nat 2 (Dep.sample_tracker (Some 1%nat))
    = Ok ([Some 1%positive; Some 4%positive], Dep.with_queue s' []
            (Dep.wrappers s')) /\
    Dep.dep_queue s' = [Some 4%positive].
Proof.
  intros cfg.
  destruct (dequeue_dep_fifo cfg 1%nat (Dep.sample_tracker (Some 1%nat))
              eq_refl) as (_ & Hfront & _).
  destruct (Hfront (Some 1%positive) [Some 4%positive] eq_refl)
    as (s' & Hrun & Hq & Hw).
  exists s'. split; [exact Hrun|]. split; [|exact Hq].
  cbn [Dep.dequeue_n]. rewrite Hrun. cbn [mbind result_bind].
  rewrite dequeue_dep_held, Hq; [|inversion Hrun; reflexivity].
  reflexivity.
Defined.

Lemma enqueue_dep_appends_witness :
  let cfg := Build true true 1 in
  (exists s' : Dep.tracker nat,
     Dep.enqueue_dep cfg 1%nat (Some 3%positive)
       (Dep.sample_tracker (Some 1%nat)) = Ok (true, s') /\
     Dep.dep_queue s'
     = [Some 1%positive; Some 4%positive; Some 3%positive]) /\
  Dep.enqueue_dep cfg 1%nat (Some 3%positive) (Dep.sample_tracker (Some 8%nat))
  = Fail AssertionFailed.
Proof.
  intros cfg. split.
  - apply (enqueue_dep_appends cfg 1%nat (Some 3%positive)
             (Dep.sample_tracker (Some 1%nat))).
    reflexivity.
  - reflexivity.
Defined.

(** The sample tracker can be cleared by a thread that takes the lock,
    with a loop budget of three and a stack for four destructor calls. *)
Lemma sample_tracker_can_clear :
  Dep.can_clear 3 (Build true true 4) true (Dep.sample_tracker None)
    [[1%positive; 2%positive; 3%positive]; [4%positive]].
Proof.
  unfold Dep.can_clear. split; [reflexivity|]. split; [reflexivity|].
  split; [right; cbn; lia|]. split; [|split; [|split; [|split]]].
  - constructor; [|constructor; [|constructor]].
    + eapply Dep.chain_link; [reflexivity|].
      eapply Dep.chain_link; [reflexivity|].
      eapply Dep.chain_link; [reflexivity|].
      apply Dep.chain_end.
    + eapply Dep.chain_link; [reflexivity|]. apply Dep.chain_end.
  - cbn. repeat (apply NoDup_cons; split;
                 [rewrite ?not_elem_of_cons; repeat split;
                  first [discriminate | apply not_elem_of_nil]|]).
    apply NoDup_nil_2.
  - repeat constructor.
  - cbn. lia.
  - vm_compute. lia.
Qed.

Lemma clear_dep_wakes_all_witness :
  let cfg := Build true true 4 in
  exists s' : Dep.tracker nat,
    Dep.clear_dep 3 cfg 9%nat true (Dep.sample_tracker None) = Ok s' /\
    Dep.dep_queue s' = [] /\ Dep.dep_key_lookup s' = ∅ /\
    Dep.dep_full s' = false /\ Dep.dep_empty_cond s' = [] /\
    Dep.dep_full_cond s' = [] /\ Dep.dep_trx_all_done_cond s' = [] /\
    0%nat ∈ Dep.woken s' /\ 2%nat ∈ Dep.woken s' /\
    3%nat ∈ Dep.woken s' /\ 5%nat ∈ Dep.woken s'.
Proof.
  intros cfg.
  destruct (clear_dep_wakes_all cfg 9%nat 3 true (Dep.sample_tracker None))
    as [Hpost Hreturns].
  destruct (Hreturns _ sample_tracker_can_clear) as [s' Hrun].
  exists s'. split; [exact Hrun|].
  destruct (Hpost s' Hrun) as (Hq & Hk & Hf & He & Hfc & Hd & Hw).
  repeat (split; [assumption|]).
  repeat split; apply Hw; cbn; rewrite !elem_of_cons; auto.
Defined.

Lemma clear_dep_in_flight_witness :
  let cfg := Build true true 4 in
  exists s' : Dep.tracker nat,
    Dep.clear_dep 3 cfg 9%nat true (Dep.sample_tracker None) = Ok s' /\
    Dep.num_in_flight_trx s' = 3 /\
    Z.of_nat (length (Dep.dep_queue s')) <= Dep.num_in_flight_trx s'.
Proof.
  intros cfg.
  destruct (clear_dep_in_flight cfg 9%nat 3 true (Dep.sample_tracker None))
    as [Hpost Hreturns]; [cbn; lia|].
  destruct (Hreturns _ sample_tracker_can_clear) as [s' Hrun].
  exists s'. split; [exact Hrun|].
  destruct (Hpost s' Hrun) as [Hn Hinv].
  split; [exact Hn | apply Hinv].
Defined.

(** *** The committed-group queue *)

Section GaqFacts.
Import Gaq.
Local Open Scope nat_scope.

Lemma seq_strictly_sorted (n a : nat) : StronglySorted lt (seq a n).
Proof.
  revert a. induction n as [|n IH]; intros a; cbn [seq]; constructor.
  - apply IH.
  - apply Forall_forall. intros k Hk. apply elem_of_seq in Hk. lia.
Qed.

(** What the scan of a checkpoint pass evicts, and where it leaves the
    mark. *)
Lemma scan_spec (ds : list Slave_job_group) :
  forall (mark : option Slave_job_group),
  exists pre : list Slave_job_group,
    ds = pre ++ (scan ds mark).1 /\
    Forall (fun d => done d = true) pre /\
    (scan ds mark).2
    = match last pre with Some d => Some d | None => mark end /\
    (forall d rest, (scan ds mark).1 = d :: rest -> done d = false).
Proof.
  induction ds as [|d ds IH]; intros mark.
  - exists []. cbn. repeat split; [constructor | discriminate].
  - cbn [scan]. destruct (done d) eqn:Hd.
    + destruct (IH (Some d)) as (pre & Hsplit & Hdone & Hmark & Hhead).
      exists (d :: pre). split; [cbn; f_equal; exact Hsplit|].
      split; [constructor; assumption|]. split; [|exact Hhead].
      rewrite Hmark, last_cons. destruct (last pre); reflexivity.
    + exists []. cbn. repeat split; [constructor|].
      intros d' rest Heq. inversion Heq; subst. exact Hd.
Qed.

Lemma move_queue_head_spec (q : Slave_committed_queue) :
  exists pre : list Slave_job_group,
    Q q = pre ++ Q (move_queue_head q) /\
    Forall (fun d => done d = true) pre /\
    lwm (move_queue_head q)
    = match last pre with Some d => Some d | None => lwm q end /\
    assigned (move_queue_head q) = assigned q /\
    (forall d rest, Q (move_queue_head q) = d :: rest -> done d = false).
Proof.
  destruct (scan_spec (Q q) (lwm q)) as (pre & Hsplit & Hdone & Hmark & Hhd).
  exists pre. unfold move_queue_head.
  destruct (scan (Q q) (lwm q)) as [rest mark]. cbn in *. auto.
Qed.

Lemma window_init : window [] init.
Proof.
  unfold window, init, low. cbn. repeat split; try reflexivity.
  - intros d Hd. apply elem_of_nil in Hd. contradiction.
  - intros g Hg. lia.
Qed.

Lemma group_index_mark_done (g : nat) (d : Slave_job_group) :
  group_index (mark_done g d) = group_index d.
Proof. unfold mark_done. case_bool_decide; reflexivity. Qed.

Lemma window_step (ops : list op) (q : Slave_committed_queue) (o : op) :
  window ops q -> window (ops ++ [o]) (step q o).
Proof.
  intros (Hidx & Hlow & Hdone & Hbelow).
  assert (Hold : forall o', o' ∈ ops -> o' ∈ ops ++ [o]).
  { intros o' Ho'. apply elem_of_app. left. exact Ho'. }
  destruct o as [seqno pos|g|]; cbn [step].
  - assert (Hsame : low (en_queue seqno pos q) = low q) by reflexivity.
    unfold window. rewrite Hsame. cbn [en_queue Q assigned].
    split; [|split; [lia|split]].
    + rewrite fmap_app, Hidx. cbn [fmap list_fmap group_index].
      replace (S (assigned q) - low q) with (S (assigned q - low q)) by lia.
      rewrite seq_S. do 2 f_equal. lia.
    + intros d Hd Hdd. apply elem_of_app in Hd as [Hd|Hd].
      * apply Hold, Hdone; assumption.
      * apply list_elem_of_singleton in Hd. subst d. discriminate.
    + intros g Hg. apply Hold, Hbelow, Hg.
  - assert (Hsame : low (report_done g q) = low q) by reflexivity.
    unfold window. rewrite Hsame. cbn [report_done Q assigned].
    split; [|split; [lia|split]].
    + rewrite <- Hidx, <- list_fmap_compose. apply list_fmap_ext.
      intros i d _. apply group_index_mark_done.
    + intros d' Hd' Hdd. apply list_elem_of_fmap in Hd' as (d & -> & Hd).
      unfold mark_done in *. case_bool_decide as Hg.
      * cbn. rewrite Hg. apply elem_of_app. right.
        apply list_elem_of_singleton. reflexivity.
      * apply Hold, Hdone; assumption.
    + intros g' Hg'. apply Hold, Hbelow, Hg'.
  - destruct (move_queue_head_spec q)
      as (pre & Hsplit & Hpre & Hmark & Hasg & _).
    destruct (last pre) as [dl|] eqn:Hlast.
    + apply last_Some in Hlast as (pre' & ->).
      rewrite Hsplit, !fmap_app in Hidx. cbn [fmap list_fmap] in Hidx.
      assert (Hlen : length pre' + 1 + length (Q (move_queue_head q))
                     = assigned q - low q).
      { apply (f_equal length) in Hidx.
        rewrite !length_app, !length_fmap, length_seq in Hidx.
        cbn [length] in Hidx. lia. }
      replace (assigned q - low q)
        with ((length pre' + 1) + length (Q (move_queue_head q)))
        in Hidx by lia.
      rewrite seq_app, seq_app in Hidx. cbn [seq] in Hidx.
      apply app_inj_1 in Hidx as [Hidx_pre Hidx_rest];
        [|rewrite !length_app, !length_fmap, !length_seq; reflexivity].
      apply app_inj_1 in Hidx_pre as [Hidx_pre' Hidx_dl];
        [|rewrite !length_fmap, !length_seq; reflexivity].
      inversion Hidx_dl as [Hdl].
      assert (Hlow' : low (move_queue_head q) = low q + (length pre' + 1)).
      { unfold low at 1. rewrite Hmark, Hdl. lia. }
      unfold window. rewrite Hlow', Hasg.
      split; [|split; [lia|split]].
      * rewrite Hidx_rest. f_equal. lia.
      * intros d Hd Hdd. apply Hold, Hdone; [|exact Hdd].
        rewrite Hsplit. apply elem_of_app. right. exact Hd.
      * intros g Hg. destruct (decide (g < low q)) as [Hlt|Hge].
        { apply Hold, Hbelow, Hlt. }
        assert (Hin : g ∈ group_index <$> (pre' ++ [dl])).
        { rewrite fmap_app, Hidx_pre'. cbn [fmap list_fmap].
          rewrite Hdl. apply elem_of_app.
          destruct (decide (g = low q + length pre')) as [->|Hne].
          - right. apply list_elem_of_singleton. reflexivity.
          - left. apply elem_of_seq. lia. }
        apply list_elem_of_fmap in Hin as (d & -> & Hd).
        apply Hold, Hdone.
        -- rewrite Hsplit. apply elem_of_app. left. exact Hd.
        -- rewrite Forall_forall in Hpre. apply Hpre, Hd.
    + apply last_None in Hlast. subst pre. cbn [app] in Hsplit.
      assert (Hlow' : low (move_queue_head q) = low q).
      { unfold low. rewrite Hmark. reflexivity. }
      unfold window. rewrite Hlow', Hasg, <- Hsplit.
      split; [exact Hidx|]. split; [exact Hlow|]. split.
      * intros d Hd Hdd. apply Hold, Hdone; assumption.
      * intros g Hg. apply Hold, Hbelow, Hg.
Qed.

Lemma gaq_run_snoc (ops : list op) (o : op) :
  run (ops ++ [o]) = step (run ops) o.
Proof. unfold run. apply foldl_snoc. Qed.

Lemma window_run (ops : list op) : window ops (run ops).
Proof.
  induction ops as [|o ops IH] using rev_ind.
  - apply window_init.
  - rewrite gaq_run_snoc. apply window_step, IH.
Qed.

(** C1. After any sequence of assignments, completion reports (in any
    order) and checkpoint passes: the committed-group queue is in strictly
    increasing order of group index; the descriptor that the low-water-mark
    has last moved past has a smaller index than every descriptor still in
    the queue, so in particular than the oldest incomplete group; every
    group at or below the mark has been reported complete; and a checkpoint
    pass evicts a prefix of the queue made of complete descriptors only,
    leaves the mark on the last of them (or where it was when there is
    none), and stops at an incomplete descriptor or at the end. *)
Theorem lwm_prefix_only (ops : list op) :
  StronglySorted lt (group_index <$> Q (run ops)) /\
  (forall dl d : Slave_job_group,
     lwm (run ops) = Some dl -> d ∈ Q (run ops) ->
     group_index dl < group_index d) /\
  (forall (dl : Slave_job_group) (g : nat),
     lwm (run ops) = Some dl -> g <= group_index dl -> Report g ∈ ops) /\
  (exists pre : list Slave_job_group,
     Q (run ops) = pre ++ Q (run (ops ++ [Checkpoint])) /\
     Forall (fun d => done d = true) pre /\
     lwm (run (ops ++ [Checkpoint]))
     = match last pre with Some d => Some d | None => lwm (run ops) end /\
     (forall d rest,
        Q (run (ops ++ [Checkpoint])) = d :: rest -> done d = false)).
Proof.
  destruct (window_run ops) as (Hidx & Hlow & Hdone & Hbelow).
  split; [|split; [|split]].
  - rewrite Hidx. apply seq_strictly_sorted.
  - intros dl d Hdl Hd.
    assert (Hin : group_index d ∈ group_index <$> Q (run ops)).
    { apply list_elem_of_fmap. exists d. auto. }
    rewrite Hidx in Hin. apply elem_of_seq in Hin.
    unfold low in Hin. rewrite Hdl in Hin. lia.
  - intros dl g Hdl Hg. apply Hbelow. unfold low. rewrite Hdl. lia.
  - destruct (move_queue_head_spec (run ops))
      as (pre & Hsplit & Hpre & Hmark & _ & Hhead).
    exists pre. rewrite gaq_run_snoc. cbn [step]. auto.
Qed.

(** Three groups; the second completes first and a checkpoint pass moves
    nothing; then the first completes and the next pass moves the mark past
    both, and stops before the third. *)
Lemma lwm_prefix_only_witness :
  let ops := [Assign 0 100; Assign 1 200; Assign 2 300; Report 1;
              Checkpoint; Report 0; Checkpoint] in
  lwm (run (take 5 ops)) = None /\
  lwm (run ops) = Some (JobGroup 1 1 200 true) /\
  Q (run ops) = [JobGroup 2 2 300 false] /\
  1 < 2 /\ Report 0 ∈ ops /\ Report 1 ∈ ops.
Proof.
  intros ops.
  destruct (lwm_prefix_only ops) as (_ & Hbelow & Hreported & _).
  split; [reflexivity|]. split; [reflexivity|]. split; [reflexivity|].
  split; [|split].
  - apply (Hbelow (JobGroup 1 1 200 true) (JobGroup 2 2 300 false));
      [reflexivity | apply list_elem_of_here].
  - apply (Hreported (JobGroup 1 1 200 true) 0); [reflexivity | cbn; lia].
  - apply (Hreported (JobGroup 1 1 200 true) 1); [reflexivity | cbn; lia].
Defined.

End GaqFacts.

(** *** The commit-order manager *)

Section CommitOrderFacts.
Import CommitOrder.
Local Open Scope nat_scope.

Lemma commit_run_snoc (ops : list op) (o : op) :
  run (ops ++ [o]) = step (run ops) o.
Proof. unfold run. apply foldl_snoc. Qed.

(** The cascade of wake-ups moves a prefix of the pending groups to the
    log, takes exactly those groups out of the waiting set, and stops at a
    group nobody waits for. *)
Lemma wake_next_spec (pend : list nat) :
  forall (wait log : list nat),
  exists woke : list nat,
    pend = woke ++ (wake_next pend wait log).1.1 /\
    (wake_next pend wait log).2 = log ++ woke /\
    (forall g, g ∈ (wake_next pend wait log).1.2 <-> g ∈ wait /\ g ∉ woke) /\
    (forall g rest, (wake_next pend wait log).1.1 = g :: rest ->
                    g ∉ (wake_next pend wait log).1.2) /\
    (forall g, g ∈ woke -> g ∈ wait).
Proof.
  assert (Hnone : forall (wait : list nat) (g : nat),
            g ∈ wait <-> g ∈ wait /\ g ∉ @nil nat).
  { intros wait g. split; [|tauto].
    intros Hg. split; [exact Hg | apply not_elem_of_nil]. }
  induction pend as [|g pend IH]; intros wait log.
  - exists []. cbn. rewrite app_nil_r.
    split; [reflexivity|]. split; [reflexivity|]. split; [apply Hnone|].
    split; [discriminate|]. intros g Hg. apply elem_of_nil in Hg. contradiction.
  - cbn [wake_next]. case_bool_decide as Hg.
    + destruct (IH (filter (λ w, w ≠ g) wait) (log ++ [g]))
        as (woke & Hsplit & Hlog & Hwait & Hstop & Hwoke).
      exists (g :: woke). split; [cbn; f_equal; exact Hsplit|].
      split; [rewrite Hlog, <- app_assoc; reflexivity|].
      split; [|split; [exact Hstop|]].
      * intros g'.
        rewrite Hwait, list_elem_of_filter, not_elem_of_cons. tauto.
      * intros g' Hg'. apply elem_of_cons in Hg' as [->|Hg']; [exact Hg|].
        apply Hwoke, list_elem_of_filter in Hg'. apply Hg'.
    + exists []. cbn. rewrite app_nil_r.
      split; [reflexivity|]. split; [reflexivity|]. split; [apply Hnone|].
      split.
      * intros g' rest Heq. inversion Heq; subst. exact Hg.
      * intros g' Hg'. apply elem_of_nil in Hg'. contradiction.
Qed.

Lemma ordered_init : ordered init.
Proof.
  unfold ordered, init. cbn. repeat split.
  - constructor.
  - constructor.
  - intros g Hg. exact Hg.
  - discriminate.
Qed.

Lemma StronglySorted_snoc (l : list nat) (g : nat) :
  StronglySorted lt l -> Forall (fun x => x < g) l ->
  StronglySorted lt (l ++ [g]).
Proof.
  intros Hsorted Hall. apply StronglySorted_app_2.
  - intros x1 x2 Hx1 Hx2. apply list_elem_of_singleton in Hx2. subst x2.
    rewrite Forall_forall in Hall. apply Hall, Hx1.
  - exact Hsorted.
  - repeat constructor.
Qed.

Lemma request_spec (g : nat) (m : Commit_order_manager) :
  ordered m ->
  granted (request g m).2 ++ pending (request g m).2
  = granted m ++ pending m /\
  next_index (request g m).2 = next_index m /\
  ordered (request g m).2.
Proof.
  intros (Hsorted & Hbound & Hwait & Hhead). unfold request.
  destruct (pending m) as [|oldest pend] eqn:Hpend.
  - cbn. rewrite Hpend. repeat split; try assumption; rewrite ?Hpend; auto.
  - case_bool_decide as Holdest.
    + subst oldest.
      destruct (wake_next_spec pend (waiting m) (granted m ++ [g]))
        as (woke & Hsplit & Hlog & Hw & Hstop & _).
      destruct (wake_next pend (waiting m) (granted m ++ [g]))
        as [[pend' wait'] log'].
      cbn [fst snd] in *. cbn [granted pending next_index snd].
      assert (Heq : log' ++ pend' = granted m ++ g :: pend).
      { rewrite Hlog, Hsplit, <- !app_assoc. reflexivity. }
      split; [exact Heq|]. split; [reflexivity|].
      unfold ordered. cbn [granted pending waiting next_index].
      rewrite Heq. split; [exact Hsorted|]. split; [exact Hbound|].
      split; [|exact Hstop].
      intros g' Hg'. apply Hw in Hg' as [Hin Hnot].
      pose proof (Hwait g' Hin) as Hpending.
      apply elem_of_cons in Hpending as [->|Hpending].
      * exfalso. exact (Hhead g pend eq_refl Hin).
      * rewrite Hsplit in Hpending.
        apply elem_of_app in Hpending as [Hwoke|Hrest];
          [contradiction | exact Hrest].
    + case_bool_decide as Hblock; cbn [snd granted pending next_index].
      * split; [reflexivity|]. split; [reflexivity|].
        unfold ordered. cbn [granted pending waiting next_index].
        split; [exact Hsorted|]. split; [exact Hbound|]. split.
        -- intros g' Hg'. apply elem_of_cons in Hg' as [->|Hg'].
           ++ apply Hblock.
           ++ apply Hwait, Hg'.
        -- intros g' rest Heq. inversion Heq; subst g' rest.
           apply not_elem_of_cons. split; [exact Holdest|].
           apply (Hhead oldest pend eq_refl).
      * rewrite Hpend. split; [reflexivity|]. split; [reflexivity|].
        unfold ordered. rewrite Hpend. auto.
Qed.

Lemma register_trx_ordered (g : nat) (m : Commit_order_manager) :
  ordered m -> ordered (register_trx g m).
Proof.
  intros (Hsorted & Hbound & Hwait & Hhead). unfold register_trx.
  case_bool_decide as Hnew; [|unfold ordered; auto].
  unfold ordered. cbn [granted pending waiting next_index].
  rewrite app_assoc. split; [|split; [|split]].
  - apply StronglySorted_snoc; [exact Hsorted|].
    eapply Forall_impl; [exact Hbound|]. cbn. intros x Hx. lia.
  - apply Forall_app. split.
    + eapply Forall_impl; [exact Hbound|]. cbn. intros x Hx. lia.
    + repeat constructor.
  - intros g' Hg'. apply elem_of_app. left. apply Hwait, Hg'.
  - intros g' rest Heq. destruct (pending m) as [|p pend] eqn:Hpend.
    + intros Hg'. apply Hwait in Hg'. apply elem_of_nil in Hg'. exact Hg'.
    + inversion Heq; subst. apply (Hhead g' pend eq_refl).
Qed.

Lemma ordered_run (ops : list op) : ordered (run ops).
Proof.
  induction ops as [|o ops IH] using rev_ind.
  - apply ordered_init.
  - rewrite commit_run_snoc. destruct o as [g|g]; cbn [step].
    + apply register_trx_ordered, IH.
    + apply request_spec, IH.
Qed.

Lemma request_grants_oldest (g : nat) (m : Commit_order_manager) :
  (request g m).1 = true <-> head (pending m) = Some g.
Proof.
  unfold request. destruct (pending m) as [|oldest pend]; cbn [head].
  - split; discriminate.
  - case_bool_decide as Holdest.
    + subst oldest.
      destruct (wake_next pend (waiting m) (granted m ++ [g]))
        as [[pend' wait'] log']. cbn. split; reflexivity.
    + case_bool_decide; cbn; (split; [discriminate | congruence]).
Qed.

Lemma request_blocks (g : nat) (m : Commit_order_manager) :
  g ∈ pending m -> g ∉ waiting m -> head (pending m) <> Some g ->
  request g m
  = (false, Manager (pending m) (g :: waiting m) (granted m) (next_index m)).
Proof.
  intros Hin Hnot Hhead. unfold request.
  destruct (pending m) as [|oldest pend] eqn:Hpend.
  - apply elem_of_nil in Hin. contradiction.
  - rewrite bool_decide_eq_false_2 by (cbn in Hhead; congruence).
    rewrite bool_decide_eq_true_2 by (split; assumption). reflexivity.
Qed.

Lemma sorted_before (l1 l2 : list nat) (g g' : nat) :
  StronglySorted lt (l1 ++ g :: l2) -> g' ∈ l1 ++ g :: l2 -> g' < g ->
  g' ∈ l1.
Proof.
  intros Hsorted Hin Hlt. apply elem_of_app in Hin as [Hin|Hin]; [exact Hin|].
  apply StronglySorted_app_1_r in Hsorted.
  apply StronglySorted_cons in Hsorted as [Hall _].
  apply elem_of_cons in Hin as [->|Hin]; [lia|].
  rewrite Forall_forall in Hall. apply Hall in Hin. lia.
Qed.

Lemma history_snoc (ops : list op) (o : op) :
  history (ops ++ [o]) = note (history ops) o.
Proof. unfold history. apply foldl_snoc. Qed.

Lemma handed_out_request (ops : list op) (g : nat) :
  handed_out (ops ++ [Request g]) = handed_out ops.
Proof.
  unfold handed_out. rewrite history_snoc. cbn [note].
  case_bool_decide; reflexivity.
Qed.

Lemma handed_out_register (ops : list op) (g : nat) :
  handed_out (ops ++ [Register g])
  = if bool_decide (Forall (λ x, x < g) (handed_out ops))
    then handed_out ops ++ [g] else handed_out ops.
Proof.
  unfold handed_out. rewrite history_snoc. cbn [note].
  case_bool_decide; reflexivity.
Qed.

Lemma asked_request (ops : list op) (g g' : nat) :
  g' ∈ asked (ops ++ [Request g]) <->
  g' ∈ asked ops \/ (g' = g /\ g ∈ handed_out ops).
Proof.
  unfold asked, handed_out. rewrite history_snoc. cbn [note].
  case_bool_decide as Hin; cbn [snd].
  - rewrite elem_of_cons. tauto.
  - tauto.
Qed.

Lemma asked_register (ops : list op) (g : nat) :
  asked (ops ++ [Register g]) = asked ops.
Proof.
  unfold asked. rewrite history_snoc. cbn [note].
  case_bool_decide; reflexivity.
Qed.

Lemma tracks_init : tracks [] init.
Proof.
  unfold tracks, init, asked, handed_out, history. cbn.
  split; [reflexivity|]. split.
  - intros g. rewrite elem_of_nil. tauto.
  - intros g. split; [constructor | lia].
Qed.

Lemma register_trx_tracks (ops : list op) (g : nat)
  (m : Commit_order_manager) :
  tracks ops m -> tracks (ops ++ [Register g]) (register_trx g m).
Proof.
  intros (Hall & Hask & Hnext). unfold tracks.
  rewrite asked_register, handed_out_register, <- Hall.
  unfold register_trx.
  destruct (decide (next_index m ≤ g)) as [Hnew|Hold].
  - rewrite (bool_decide_eq_true_2 _ Hnew).
    rewrite (bool_decide_eq_true_2 _ (proj1 (Hnext g) Hnew)).
    cbn [granted pending waiting next_index fst].
    split; [apply app_assoc|]. split; [exact Hask|].
    intros g'. rewrite app_assoc, Forall_app, Forall_singleton.
    apply Hnext in Hnew. split.
    + intros Hlt. split; [|lia].
      eapply Forall_impl; [exact Hnew|]. cbn. intros x Hx. lia.
    + intros [_ Hlt]. lia.
  - rewrite (bool_decide_eq_false_2 _ Hold).
    rewrite bool_decide_eq_false_2 by (rewrite <- Hnext; exact Hold).
    split; [reflexivity|]. split; [exact Hask | exact Hnext].
Qed.

Lemma request_tracks (ops : list op) (g : nat) (m : Commit_order_manager) :
  ordered m -> tracks ops m -> tracks (ops ++ [Request g]) (request g m).2.
Proof.
  intros Hordered (Hall & Hask & Hnext).
  destruct (request_spec g m Hordered) as (Hkeep & Hidx & _).
  destruct Hordered as (Hsorted & Hbound & Hwait & Hhead).
  unfold tracks. rewrite handed_out_request, Hkeep, Hidx.
  split; [exact Hall|]. split; [|exact Hnext].
  intros g'. rewrite asked_request, Hask, <- Hall, elem_of_app.
  unfold request. destruct (pending m) as [|oldest pend] eqn:Hpend.
  - cbn [snd]. rewrite elem_of_nil. intuition congruence.
  - case_bool_decide as Holdest.
    + subst oldest.
      destruct (wake_next_spec pend (waiting m) (granted m ++ [g]))
        as (woke & Hsplit & Hlog & Hw & _ & Hwoke).
      destruct (wake_next pend (waiting m) (granted m ++ [g]))
        as [[pend' wait'] log'].
      cbn [fst snd] in *. cbn [granted waiting snd].
      rewrite Hlog, Hw, !elem_of_app, list_elem_of_singleton.
      destruct (decide (g' ∈ woke)) as [Hin|Hout].
      * pose proof (Hwoke g' Hin). tauto.
      * rewrite elem_of_cons. tauto.
    + case_bool_decide as Hblock; cbn [snd granted waiting].
      * destruct Hblock as [Hin _]. rewrite elem_of_cons in Hin.
        rewrite !elem_of_cons. intuition congruence.
      * rewrite elem_of_cons in Hblock. rewrite elem_of_cons.
        destruct (decide (g ∈ waiting m)) as [Hw|Hw];
          intuition congruence.
Qed.

Lemma tracks_run (ops : list op) : tracks ops (run ops).
Proof.
  induction ops as [|o ops IH] using rev_ind.
  - apply tracks_init.
  - rewrite commit_run_snoc. destruct o as [g|g]; cbn [step].
    + apply register_trx_tracks, IH.
    + apply request_tracks; [apply ordered_run | exact IH].
Qed.

Lemma asked_mono (ops ops' : list op) (g : nat) :
  g ∈ asked ops -> g ∈ asked (ops ++ ops').
Proof.
  intros Hg. induction ops' as [|o ops' IH] using rev_ind.
  - rewrite app_nil_r. exact Hg.
  - rewrite app_assoc. destruct o as [g'|g'].
    + rewrite asked_register. exact IH.
    + apply asked_request. left. exact IH.
Qed.

Lemma step_granted_prefix (m : Commit_order_manager) (o : op) :
  granted m `prefix_of` granted (step m o).
Proof.
  destruct o as [g|g]; cbn [step].
  - unfold register_trx. case_bool_decide; reflexivity.
  - unfold request. destruct (pending m) as [|oldest pend]; [reflexivity|].
    case_bool_decide as Holdest.
    + destruct (wake_next_spec pend (waiting m) (granted m ++ [g]))
        as (woke & _ & Hlog & _).
      destruct (wake_next pend (waiting m) (granted m ++ [g]))
        as [[pend' wait'] log'].
      cbn [fst snd] in *. cbn [granted snd]. rewrite Hlog, <- app_assoc.
      apply prefix_app_r. reflexivity.
    + case_bool_decide; reflexivity.
Qed.

Lemma granted_prefix (ops ops' : list op) :
  granted (run ops) `prefix_of` granted (run (ops ++ ops')).
Proof.
  induction ops' as [|o ops' IH] using rev_ind.
  - rewrite app_nil_r. reflexivity.
  - rewrite app_assoc, commit_run_snoc.
    etrans; [exact IH | apply step_granted_prefix].
Qed.

(** C2. After any sequence of registrations and requests: a request to
    commit group [g] is granted at once exactly when [g] is the oldest
    pending (still uncommitted) group; a request for another pending group
    that does not wait yet makes its worker wait and grants nothing; every
    waiting group has an older group pending before it; the grants made so
    far are in strictly increasing order of group index; and when a group
    was granted, every group handed out with a smaller index had been
    granted before it.  With respect to the operations themselves: no group
    handed out is lost, it is granted or still pending; the workers that
    have asked are exactly the granted and the waiting ones; a worker that
    has asked waits exactly as long as some group handed out with a smaller
    index is not granted; a group is granted exactly when it and every
    group handed out with a smaller index have asked, in whatever order
    they did; and whatever happens next, the grants made stay in place at
    the head of the log and a waiting worker either still waits or has been
    granted. *)
Theorem commits_in_group_order (ops : list op) :
  (forall g : nat,
     (request g (run ops)).1 = true <-> head (pending (run ops)) = Some g) /\
  (forall g : nat,
     g ∈ pending (run ops) -> g ∉ waiting (run ops) ->
     head (pending (run ops)) <> Some g ->
     waiting (request g (run ops)).2 = g :: waiting (run ops) /\
     granted (request g (run ops)).2 = granted (run ops)) /\
  (forall g : nat,
     g ∈ waiting (run ops) ->
     exists older : nat, head (pending (run ops)) = Some older /\ older < g) /\
  StronglySorted lt (granted (run ops)) /\
  (forall (before after : list nat) (g g' : nat),
     granted (run ops) = before ++ g :: after ->
     g' ∈ granted (run ops) ++ pending (run ops) -> g' < g ->
     g' ∈ before) /\
  granted (run ops) ++ pending (run ops) = handed_out ops /\
  (forall g : nat,
     g ∈ asked ops <-> g ∈ granted (run ops) \/ g ∈ waiting (run ops)) /\
  (forall g : nat,
     g ∈ waiting (run ops) <->
     g ∈ asked ops /\
     exists g' : nat,
       g' ∈ handed_out ops /\ g' < g /\ g' ∉ granted (run ops)) /\
  (forall g : nat,
     g ∈ granted (run ops) <->
     g ∈ handed_out ops /\
     forall g' : nat, g' ∈ handed_out ops -> g' <= g -> g' ∈ asked ops) /\
  (forall ops' : list op,
     granted (run ops) `prefix_of` granted (run (ops ++ ops')) /\
     forall g : nat,
       g ∈ waiting (run ops) ->
       g ∈ waiting (run (ops ++ ops')) \/ g ∈ granted (run (ops ++ ops'))).
Proof.
  destruct (ordered_run ops) as (Hsorted & Hbound & Hwait & Hhead).
  destruct (tracks_run ops) as (Hall & Hask & _).
  assert (Holder : forall g : nat,
            g ∈ waiting (run ops) ->
            exists older : nat,
              head (pending (run ops)) = Some older /\ older < g).
  { intros g Hg. pose proof (Hwait g Hg) as Hin.
    destruct (pending (run ops)) as [|oldest pend] eqn:Hpend.
    - apply elem_of_nil in Hin. contradiction.
    - exists oldest. split; [reflexivity|].
      apply elem_of_cons in Hin as [->|Hin].
      + exfalso. exact (Hhead oldest pend eq_refl Hg).
      + apply StronglySorted_app_1_r in Hsorted.
        apply StronglySorted_cons in Hsorted as [Hall' _].
        rewrite Forall_forall in Hall'. apply Hall', Hin. }
  assert (Hbefore : forall (before after : list nat) (g g' : nat),
            granted (run ops) = before ++ g :: after ->
            g' ∈ granted (run ops) ++ pending (run ops) -> g' < g ->
            g' ∈ before).
  { intros before after g g' Hsplit Hin Hlt.
    rewrite Hsplit, <- app_assoc in Hin, Hsorted. cbn [app] in Hin, Hsorted.
    eapply sorted_before; eassumption. }
  assert (Hapart : forall g : nat,
            g ∈ pending (run ops) -> g ∉ granted (run ops)).
  { intros g Hpending Hgranted.
    apply StronglySorted_app_1_elem_of with (x1 := g) (x2 := g) in Hsorted;
      [lia | exact Hgranted | exact Hpending]. }
  assert (Hhead_in : forall older : nat,
            head (pending (run ops)) = Some older ->
            older ∈ pending (run ops) /\ older ∉ waiting (run ops)).
  { intros older Hold.
    destruct (pending (run ops)) as [|g pend] eqn:Hpend; [discriminate|].
    cbn in Hold. inversion Hold; subst g.
    split; [apply list_elem_of_here | exact (Hhead older pend eq_refl)]. }
  split; [intros g; apply request_grants_oldest|].
  split.
  { intros g Hin Hnot Hold. rewrite request_blocks by assumption.
    split; reflexivity. }
  split; [exact Holder|].
  split; [apply StronglySorted_app_1_l in Hsorted; exact Hsorted|].
  split; [exact Hbefore|].
  split; [exact Hall|].
  split; [exact Hask|].
  split; [|split].
  - intros g. split.
    + intros Hg. split; [apply Hask; right; exact Hg|].
      destruct (Holder g Hg) as (older & Hold & Hlt).
      destruct (Hhead_in older Hold) as [Hpending _].
      exists older. split; [|split; [exact Hlt | apply Hapart, Hpending]].
      rewrite <- Hall. apply elem_of_app. right. exact Hpending.
    + intros (Hg & g' & Hin & Hlt & Hnot).
      apply Hask in Hg as [Hg|Hg]; [|exact Hg].
      exfalso. apply Hnot.
      apply list_elem_of_split in Hg as (before & after & Hsplit).
      rewrite <- Hall in Hin.
      pose proof (Hbefore before after g g' Hsplit Hin Hlt) as Hg'.
      rewrite Hsplit. apply elem_of_app. left. exact Hg'.
  - intros g. split.
    + intros Hg. split; [rewrite <- Hall; apply elem_of_app; auto|].
      intros g' Hin Hle. apply Hask. left.
      destruct (decide (g' = g)) as [->|Hne]; [exact Hg|].
      pose proof Hg as Hg0.
      apply list_elem_of_split in Hg as (before & after & Hsplit).
      rewrite <- Hall in Hin.
      assert (Hlt : g' < g) by lia.
      pose proof (Hbefore before after g g' Hsplit Hin Hlt) as Hg'.
      rewrite Hsplit. apply elem_of_app. left. exact Hg'.
    + intros (Hin & Hasked). rewrite <- Hall in Hin, Hasked.
      apply elem_of_app in Hin as [Hin|Hin]; [exact Hin|]. exfalso.
      destruct (pending (run ops)) as [|oldest pend] eqn:Hpend.
      { apply elem_of_nil in Hin. contradiction. }
      destruct (Hhead_in oldest eq_refl) as [Hpending Hnowait].
      assert (Hle : oldest <= g).
      { apply elem_of_cons in Hin as [->|Hin]; [lia|].
        apply StronglySorted_app_1_r in Hsorted.
        apply StronglySorted_cons in Hsorted as [Hall' _].
        rewrite Forall_forall in Hall'. apply Hall' in Hin. lia. }
      assert (Hold : oldest ∈ granted (run ops) ++ oldest :: pend).
      { apply elem_of_app. right. exact Hpending. }
      apply (Hasked oldest Hold) in Hle.
      apply Hask in Hle as [Hgr|Hw]; [|exact (Hnowait Hw)].
      exact (Hapart oldest Hpending Hgr).
  - intros ops'. split; [apply granted_prefix|].
    intros g Hg.
    destruct (tracks_run (ops ++ ops')) as (_ & Hask' & _).
    assert (Hasked : g ∈ asked (ops ++ ops')).
    { apply asked_mono, Hask. right. exact Hg. }
    apply Hask' in Hasked. tauto.
Qed.

(** Four groups; the worker of the last one asks first and waits, the worker
    of the first one is granted at once: group 3 keeps waiting, behind the
    groups 1 and 2 that have not asked, and is granted once they have. *)
Lemma commits_in_group_order_witness :
  let ops := [Register 0; Register 1; Register 2; Register 3;
              Request 3; Request 0] in
  (request 1 (run ops)).1 = true /\
  granted (run ops) = [0] /\
  pending (run ops) = [1; 2; 3] /\
  waiting (run ops) = [3] /\
  (exists g' : nat, g' ∈ handed_out ops /\ g' < 3 /\ g' ∉ granted (run ops)) /\
  granted (run (ops ++ [Request 2; Request 1])) = [0; 1; 2; 3] /\
  3 ∈ granted (run (ops ++ [Request 2; Request 1])).
Proof.
  intros ops.
  destruct (commits_in_group_order ops)
    as (Hgrant & _ & _ & _ & _ & _ & _ & Hblocked & _ & Hlater).
  assert (Hwaits : 3 ∈ waiting (run ops)) by (cbn; apply list_elem_of_here).
  split; [apply Hgrant; reflexivity|].
  split; [reflexivity|]. split; [reflexivity|]. split; [reflexivity|].
  split; [apply (Hblocked 3), Hwaits|].
  split; [reflexivity|].
  destruct (Hlater [Request 2; Request 1]) as [_ Hkept].
  destruct (Hkept 3 Hwaits) as [Hstill|Hdone]; [|exact Hdone].
  exfalso. vm_compute in Hstill. apply elem_of_nil in Hstill. exact Hstill.
Defined.

End CommitOrderFacts.

(** ** Part III. Further properties of the code *)

(** *** More on the replication state flags *)

Section FlagWordFacts.
Import Flags.

Lemma wrap_testbit_any (width x k : Z) :
  0 <= width -> 0 <= k ->
  Z.testbit (wrap width x) k = (k <? width) && Z.testbit x k.
Proof.
  intros Hw Hk. unfold wrap. destruct (Z.ltb_spec k width) as [Hlt|Hge].
  - apply Z.mod_pow2_bits_low. lia.
  - apply Z.mod_pow2_bits_high. lia.
Qed.

Lemma wrap_range (width x : Z) : 0 <= width -> 0 <= wrap width x < 2 ^ width.
Proof. intros Hw. unfold wrap. apply Z.mod_pos_bound. lia. Qed.

Lemma set_flag_testbit (m : Z) (f : enum_state_flag) (k : Z) :
  0 <= k ->
  Z.testbit (set_flag m f) k
  = (k <? 32) && (Z.testbit m k || bool_decide (flag_value f = k)).
Proof.
  intros Hk. pose proof (flag_value_range f) as Hf.
  unfold set_flag, uint32. rewrite wrap_testbit_any by lia.
  rewrite Z.lor_spec, one_UL_shl_testbit by lia. reflexivity.
Qed.

Lemma clear_flag_testbit (m : Z) (f : enum_state_flag) (k : Z) :
  0 <= k ->
  Z.testbit (clear_flag m f) k
  = (k <? 32) && (Z.testbit m k && negb (bool_decide (flag_value f = k))).
Proof.
  intros Hk. pose proof (flag_value_range f) as Hf.
  unfold clear_flag, uint32. rewrite wrap_testbit_any by lia.
  destruct (Z.ltb_spec k 32) as [Hlt|Hge]; [|reflexivity].
  rewrite Z.land_spec, not_UL_testbit, one_UL_shl_testbit by lia.
  reflexivity.
Qed.

Lemma uint32_testbit_high (m k : Z) :
  0 <= m < 2 ^ 32 -> 32 <= k -> Z.testbit m k = false.
Proof.
  intros Hm Hk. rewrite <- (wrap_small 32 m Hm).
  rewrite wrap_testbit_any by lia.
  destruct (Z.ltb_spec k 32); [lia | reflexivity].
Qed.

(** X1. For a flag word within [uint32]: [set_flag] and [clear_flag] keep
    it within [uint32]; setting a flag that was clear and clearing it again
    gives the word back, and so does clearing a flag that was set and
    setting it again; and setting or clearing twice is the same as once. *)
Theorem flag_word_round_trip (m : Z) (f : enum_state_flag) :
  0 <= m < 2 ^ 32 ->
  0 <= set_flag m f < 2 ^ 32 /\
  0 <= clear_flag m f < 2 ^ 32 /\
  (get_flag m f = false -> clear_flag (set_flag m f) f = m) /\
  (get_flag m f = true -> set_flag (clear_flag m f) f = m) /\
  set_flag (set_flag m f) f = set_flag m f /\
  clear_flag (clear_flag m f) f = clear_flag m f.
Proof.
  intros Hm. split; [apply wrap_range; lia|]. split; [apply wrap_range; lia|].
  assert (Hbits : forall k, 0 <= k ->
            (k <? 32) && Z.testbit m k = Z.testbit m k).
  { intros k Hk. destruct (Z.ltb_spec k 32) as [Hlt|Hge]; [reflexivity|].
    rewrite (uint32_testbit_high m k) by lia. reflexivity. }
  rewrite !get_flag_testbit.
  split; [|split; [|split]].
  - intros Hclear. apply Z.bits_inj'. intros k Hk.
    rewrite clear_flag_testbit, set_flag_testbit by exact Hk.
    rewrite <- (Hbits k Hk). case_bool_decide as Hfk.
    + rewrite <- Hfk, Hclear. destruct (flag_value f <? 32); reflexivity.
    + destruct (k <? 32), (Z.testbit m k); reflexivity.
  - intros Hset. apply Z.bits_inj'. intros k Hk.
    rewrite set_flag_testbit, clear_flag_testbit by exact Hk.
    rewrite <- (Hbits k Hk). case_bool_decide as Hfk.
    + rewrite <- Hfk, Hset. destruct (flag_value f <? 32); reflexivity.
    + destruct (k <? 32), (Z.testbit m k); reflexivity.
  - apply Z.bits_inj'. intros k Hk. rewrite !set_flag_testbit by exact Hk.
    destruct (k <? 32), (Z.testbit m k), (bool_decide (flag_value f = k));
      reflexivity.
  - apply Z.bits_inj'. intros k Hk. rewrite !clear_flag_testbit by exact Hk.
    destruct (k <? 32), (Z.testbit m k), (bool_decide (flag_value f = k));
      reflexivity.
Qed.

Lemma flag_word_round_trip_witness :
  clear_flag (set_flag 4294967292 STATE_FLAGS_COUNT) STATE_FLAGS_COUNT
  = 4294967292 /\
  set_flag (clear_flag 1 IN_STMT) IN_STMT = 1.
Proof.
  assert (Hhigh : 0 <= 4294967292 < 2 ^ 32) by lia.
  assert (Hone : 0 <= 1 < 2 ^ 32) by lia.
  destruct (flag_word_round_trip 4294967292 STATE_FLAGS_COUNT Hhigh)
    as (_ & _ & Hback & _).
  destruct (flag_word_round_trip 1 IN_STMT Hone) as (_ & _ & _ & Hback' & _).
  split; [apply Hback | apply Hback']; reflexivity.
Defined.

End FlagWordFacts.

(** *** Being inside a group *)

Section InGroupFacts.
Import Flags Group.

Context (OPTION_BEGIN : Z).
Context {group_type : Type} `{EqDecision group_type}.
Context (GTID_GROUP ANONYMOUS_GROUP : group_type).

Local Abbreviation in_group := (is_in_group OPTION_BEGIN GTID_GROUP ANONYMOUS_GROUP).

Lemma is_in_group_get_flag (m : Z) (thd : thd_state) :
  in_group m thd = get_flag m IN_STMT || in_group 0 thd.
Proof.
  unfold is_in_group, get_flag. rewrite Z.land_0_l. cbn [Z.eqb negb].
  destruct (negb (Z.land (option_bits thd) OPTION_BEGIN =? 0)),
    (negb (Z.land m (one_UL_shl (flag_value IN_STMT)) =? 0)),
    (bool_decide (gtid_next_type thd = GTID_GROUP)),
    (bool_decide (gtid_next_type thd = ANONYMOUS_GROUP)),
    (negb (owned_gtid_sidno thd =? 0)); reflexivity.
Qed.

(** X2. [is_in_group()] is true when [get_flag(IN_STMT)] is, and otherwise
    is what the thread's state alone makes it: after [set_flag(IN_STMT)] it
    returns true whatever the thread's state, after [clear_flag(IN_STMT)] it
    depends on the thread's state only, and setting or clearing the other
    enumerator changes nothing. *)
Theorem is_in_group_in_stmt (m : Z) (thd : thd_state) :
  in_group m thd = get_flag m IN_STMT || in_group 0 thd /\
  in_group (set_flag m IN_STMT) thd = true /\
  in_group (clear_flag m IN_STMT) thd = in_group 0 thd /\
  in_group (set_flag m STATE_FLAGS_COUNT) thd = in_group m thd /\
  in_group (clear_flag m STATE_FLAGS_COUNT) thd = in_group m thd.
Proof.
  split; [apply is_in_group_get_flag|].
  rewrite !(is_in_group_get_flag (set_flag _ _)),
    !(is_in_group_get_flag (clear_flag _ _)), (is_in_group_get_flag m).
  rewrite !get_set_flag, !get_clear_flag.
  rewrite (bool_decide_eq_true_2 (IN_STMT = IN_STMT)) by reflexivity.
  rewrite (bool_decide_eq_false_2 (STATE_FLAGS_COUNT = IN_STMT))
    by discriminate.
  cbn [negb]. rewrite orb_true_r, andb_false_r, orb_false_r, andb_true_r.
  repeat split; reflexivity.
Qed.

End InGroupFacts.

(** *** Scheduling inside a group, and the end of recovery *)

Section MtsGroupFacts.
Import Mts.

Variable cfg : build.

Lemma is_parallel_exec_in_recovery (r : rli) :
  is_mts_recovery r = true -> is_parallel_exec cfg r = Ok false.
Proof.
  intros Hrec. unfold is_parallel_exec. cbv zeta. rewrite Hrec.
  rewrite andb_false_r. cbn [negb orb].
  rewrite DBUG_ASSERT_holds by reflexivity. reflexivity.
Qed.

(** X3. Whenever [is_mts_in_group()] returns, it returns true exactly when
    [slave_parallel_workers] is positive, no recovery group is left and the
    status is [MTS_IN_GROUP]; it fails exactly as [is_parallel_exec()] does;
    and during recovery it returns false even in status [MTS_IN_GROUP]. *)
Theorem is_mts_in_group_spec (r : rli) :
  (forall b : bool, is_mts_in_group cfg r = Ok b ->
     (b = true <->
      0 < slave_parallel_workers r /\ mts_recovery_group_cnt r = 0 /\
      mts_group_status r = MTS_IN_GROUP)) /\
  (forall e : failure, is_mts_in_group cfg r = Fail e <->
                       is_parallel_exec cfg r = Fail e) /\
  (is_mts_recovery r = true -> is_mts_in_group cfg r = Ok false).
Proof.
  unfold is_mts_in_group. split; [|split].
  - intros b. destruct (is_parallel_exec cfg r) as [par|e] eqn:Hpar;
      cbn [mbind result_bind]; [|discriminate].
    apply is_parallel_exec_value in Hpar. intros Hb. inversion Hb; subst.
    rewrite !andb_true_iff, negb_true_iff, Z.ltb_lt, bool_decide_eq_true.
    unfold is_mts_recovery. rewrite negb_false_iff, Z.eqb_eq. tauto.
  - intros e. destruct (is_parallel_exec cfg r) as [par|e'];
      cbn [mbind result_bind]; split; intros He; inversion He; reflexivity.
  - intros Hrec. rewrite is_parallel_exec_in_recovery by exact Hrec.
    reflexivity.
Qed.

End MtsGroupFacts.

(** A release build in status [MTS_IN_GROUP]: with three gap groups left
    the coordinator is not inside a group for the scheduler, with none it
    is. *)
Lemma is_mts_in_group_spec_witness :
  let cfg := Build false false 1 in
  Mts.is_mts_in_group cfg (Mts.Rli 0 4 true 3 Mts.MTS_IN_GROUP) = Ok false /\
  Mts.is_mts_in_group cfg (Mts.Rli 4 4 true 0 Mts.MTS_IN_GROUP) = Ok true.
Proof.
  intros cfg.
  destruct (is_mts_in_group_spec cfg (Mts.Rli 0 4 true 3 Mts.MTS_IN_GROUP))
    as (_ & _ & Hrec).
  destruct (is_mts_in_group_spec cfg (Mts.Rli 4 4 true 0 Mts.MTS_IN_GROUP))
    as (Hval & _ & _).
  split; [apply Hrec; reflexivity|].
  destruct (Mts.is_mts_in_group cfg (Mts.Rli 4 4 true 0 Mts.MTS_IN_GROUP))
    as [b|e] eqn:Hrun; [|discriminate Hrun].
  f_equal. apply (Hval b eq_refl). cbn. repeat split; lia.
Defined.

Section RecoveryFacts.
Import Mts Recovery.

Context {MY_BITMAP : Type} (bitmap_free : MY_BITMAP -> MY_BITMAP).
Variable cfg : build.

(** X4. [clear_mts_recovery_groups()] does nothing when the bitmap was not
    initialised, so a recovery that is pending stays pending.  When it was,
    the bitmap is freed, no recovery is pending any more and
    [is_parallel_exec()] then depends on the number of workers alone.  A
    second call changes nothing, so the bitmap is never freed twice. *)
Theorem clear_mts_recovery_groups_once (r : recovery_state) :
  (recovery_groups_inited (rli r) = false ->
   clear_mts_recovery_groups bitmap_free r = r) /\
  (recovery_groups_inited (rli r) = true ->
   is_mts_recovery (rli (clear_mts_recovery_groups bitmap_free r)) = false /\
   recovery_groups (clear_mts_recovery_groups bitmap_free r)
   = bitmap_free (recovery_groups r) /\
   forall b : bool,
     is_parallel_exec cfg (rli (clear_mts_recovery_groups bitmap_free r))
     = Ok b ->
     (b = true <-> 0 < slave_parallel_workers (rli r))) /\
  clear_mts_recovery_groups bitmap_free
    (clear_mts_recovery_groups bitmap_free r)
  = clear_mts_recovery_groups bitmap_free r /\
  rli (clear_mts_recovery_groups bitmap_free r)
  = Mts.clear_mts_recovery_groups (rli r).
Proof.
  unfold clear_mts_recovery_groups, Mts.clear_mts_recovery_groups.
  destruct (recovery_groups_inited (rli r)) eqn:Hinit.
  - split; [discriminate|]. split; [|split; reflexivity].
    intros _. split; [reflexivity|]. split; [reflexivity|].
    intros b Hb. apply is_parallel_exec_value in Hb. subst b.
    cbn. rewrite andb_true_r. apply Z.ltb_lt.
  - rewrite Hinit. split; [reflexivity|]. split; [discriminate|].
    split; reflexivity.
Qed.

End RecoveryFacts.

Lemma clear_mts_recovery_groups_once_witness :
  let r := Recovery.RecoveryState
             (Mts.Rli 4 4 false 3 Mts.MTS_NOT_IN_GROUP) [true; false] in
  let r' := Recovery.RecoveryState
              (Mts.Rli 4 4 true 3 Mts.MTS_NOT_IN_GROUP) [true; false] in
  Mts.is_mts_recovery
    (Recovery.rli (Recovery.clear_mts_recovery_groups (fun _ => []) r))
  = true /\
  Mts.is_mts_recovery
    (Recovery.rli (Recovery.clear_mts_recovery_groups (fun _ => []) r'))
  = false.
Proof.
  intros r r'.
  destruct (clear_mts_recovery_groups_once (fun _ : list bool => [])
              (Build true true 1) r) as (Hsame & _).
  destruct (clear_mts_recovery_groups_once (fun _ : list bool => [])
              (Build true true 1) r') as (_ & Hends & _).
  split.
  - rewrite Hsame by reflexivity. reflexivity.
  - apply Hends. reflexivity.
Defined.

(** *** Log coordinates and the UNTIL condition *)

Section CoordsFacts.
Import Coords.

(** X5. Each of the two notifications forgets the cached comparison of log
    names under its own UNTIL condition only ([UNTIL_RELAY_POS] for the relay
    log name, [UNTIL_MASTER_POS] for the master's) and is the identity
    under every other; so at most one of them changes a given state, they
    commute, and neither changes [until_pos()]. *)
Theorem notify_log_name_update_spec (r : coordinates) :
  (until_condition r = UNTIL_RELAY_POS ->
   notify_group_relay_log_name_update r
   = set_until_log_names_cmp_result UNTIL_LOG_NAMES_CMP_UNKNOWN r /\
   notify_group_master_log_name_update r = r) /\
  (until_condition r = UNTIL_MASTER_POS ->
   notify_group_master_log_name_update r
   = set_until_log_names_cmp_result UNTIL_LOG_NAMES_CMP_UNKNOWN r /\
   notify_group_relay_log_name_update r = r) /\
  (until_condition r <> UNTIL_RELAY_POS ->
   until_condition r <> UNTIL_MASTER_POS ->
   notify_group_relay_log_name_update r = r /\
   notify_group_master_log_name_update r = r) /\
  notify_group_relay_log_name_update (notify_group_master_log_name_update r)
  = notify_group_master_log_name_update
      (notify_group_relay_log_name_update r) /\
  until_pos (notify_group_relay_log_name_update r) = until_pos r /\
  until_pos (notify_group_master_log_name_update r) = until_pos r.
Proof.
  unfold notify_group_relay_log_name_update,
    notify_group_master_log_name_update.
  destruct r as [grp erp frp gmp fmp cond cmp]. cbn.
  split; [|split; [|split; [|split; [|split]]]].
  - intros ->. split; reflexivity.
  - intros ->. split; reflexivity.
  - intros Hrelay Hmaster.
    rewrite !bool_decide_eq_false_2 by assumption. split; reflexivity.
  - destruct cond; reflexivity.
  - destruct cond; reflexivity.
  - destruct cond; reflexivity.
Qed.

(** X6. [until_pos()] is a position of the group: the event-level setters
    and [inc_event_relay_log_pos()] never change it.  Under
    [UNTIL_MASTER_POS] it is what [set_group_master_log_pos] stored and the
    relay position is ignored; under every other condition, [UNTIL_NONE]
    included, it is what [set_group_relay_log_pos] stored and the master
    position is ignored. *)
Theorem until_pos_is_a_group_position (r : coordinates) (log_pos : Z) :
  until_pos (inc_event_relay_log_pos r) = until_pos r /\
  until_pos (set_event_relay_log_pos log_pos r) = until_pos r /\
  until_pos (set_future_event_relay_log_pos log_pos r) = until_pos r /\
  until_pos (set_future_group_master_log_pos log_pos r) = until_pos r /\
  (until_condition r = UNTIL_MASTER_POS ->
   until_pos (set_group_master_log_pos log_pos r) = log_pos /\
   until_pos (set_group_relay_log_pos log_pos r) = until_pos r) /\
  (until_condition r <> UNTIL_MASTER_POS ->
   until_pos (set_group_relay_log_pos log_pos r) = log_pos /\
   until_pos (set_group_master_log_pos log_pos r) = until_pos r).
Proof.
  unfold until_pos. destruct r as [grp erp frp gmp fmp cond cmp]. cbn.
  do 4 (split; [reflexivity|]). split; intros Hcond.
  - rewrite bool_decide_eq_true_2 by exact Hcond. split; reflexivity.
  - rewrite bool_decide_eq_false_2 by exact Hcond. split; reflexivity.
Qed.

(** X7. After [set_future_event_relay_log_pos(p)],
    [inc_event_relay_log_pos()] moves the event position to [p], leaves the
    positions of the group alone, and doing it again changes nothing; a
    position written by [set_event_relay_log_pos] is overwritten by it. *)
Theorem event_relay_log_pos_advance (r : coordinates) (log_pos : Z) :
  let r' := inc_event_relay_log_pos
              (set_future_event_relay_log_pos log_pos r) in
  get_event_relay_log_pos r' = log_pos /\
  get_future_event_relay_log_pos r' = log_pos /\
  get_group_relay_log_pos r' = get_group_relay_log_pos r /\
  get_group_master_log_pos r' = get_group_master_log_pos r /\
  inc_event_relay_log_pos r' = r' /\
  inc_event_relay_log_pos (set_event_relay_log_pos log_pos r)
  = inc_event_relay_log_pos r.
Proof. destruct r. cbn. repeat split; reflexivity. Qed.

End CoordsFacts.

Lemma notify_log_name_update_spec_witness :
  let r := Coords.Coordinates 4 4 4 120 120 Coords.UNTIL_RELAY_POS
             Coords.UNTIL_LOG_NAMES_CMP_LESS in
  Coords.until_log_names_cmp_result
    (Coords.notify_group_relay_log_name_update r)
  = Coords.UNTIL_LOG_NAMES_CMP_UNKNOWN /\
  Coords.notify_group_master_log_name_update r = r.
Proof.
  intros r.
  destruct (notify_log_name_update_spec r) as (Hrelay & _).
  destruct (Hrelay eq_refl) as [Hforget Hsame].
  rewrite Hforget. split; [reflexivity | exact Hsame].
Defined.

Lemma until_pos_is_a_group_position_witness :
  let r := Coords.Coordinates 4 4 4 120 120 Coords.UNTIL_NONE
             Coords.UNTIL_LOG_NAMES_CMP_UNKNOWN in
  Coords.until_pos (Coords.set_group_relay_log_pos 500 r) = 500 /\
  Coords.until_pos (Coords.set_group_master_log_pos 700 r) = 4.
Proof.
  intros r.
  destruct (until_pos_is_a_group_position r 500) as (_ & _ & _ & _ & _ & Hrel).
  destruct (until_pos_is_a_group_position r 700) as (_ & _ & _ & _ & _ & Hmas).
  split.
  - apply Hrel. discriminate.
  - rewrite (proj2 (Hmas ltac:(discriminate))). reflexivity.
Defined.

(** *** The SQL delay and the start of a row statement *)

Section DelayFacts.
Import Delay.

Lemma sint32_range (x : Z) : - 2 ^ 31 <= sint32 x < 2 ^ 31.
Proof.
  unfold sint32, wrap.
  pose proof (Z.mod_pos_bound (x + 2 ^ 31) (2 ^ 32)). lia.
Qed.

Lemma sint32_small (x : Z) : - 2 ^ 31 <= x < 2 ^ 31 -> sint32 x = x.
Proof.
  intros Hx. unfold sint32. rewrite wrap_small by lia. lia.
Qed.

Lemma sint32_congruent (x : Z) : (sint32 x - x) mod 2 ^ 32 = 0.
Proof.
  unfold sint32, wrap.
  pose proof (Z.mod_eq (x + 2 ^ 31) (2 ^ 32)) as Hmod.
  replace ((x + 2 ^ 31) mod 2 ^ 32 - 2 ^ 31 - x)
    with (- ((x + 2 ^ 31) / 2 ^ 32) * 2 ^ 32) by lia.
  apply Z.mod_mul. lia.
Qed.

(** X8. [set_sql_delay] stores its 64-bit argument in an [int]:
    [get_sql_delay()] then returns a value of 32 bits that differs from the
    argument by a multiple of 2^32, and returns the argument itself exactly
    when that fits in 32 bits.  [clear_sql_delay()] makes it 0, and
    [start_sql_delay()] sets the end of the delay without changing it. *)
Theorem sql_delay_narrowed (cfg : build) (self : Dep.thread_id)
  (x : Z) (r : delay_state) :
  - 2 ^ 31 <= get_sql_delay (set_sql_delay x r) < 2 ^ 31 /\
  (get_sql_delay (set_sql_delay x r) - x) mod 2 ^ 32 = 0 /\
  (get_sql_delay (set_sql_delay x r) = x <-> - 2 ^ 31 <= x < 2 ^ 31) /\
  get_sql_delay (clear_sql_delay (set_sql_delay x r)) = 0 /\
  (forall (delay_end : Z) (r' : delay_state),
     start_sql_delay cfg self delay_end (set_sql_delay x r) = Ok r' ->
     get_sql_delay r' = get_sql_delay (set_sql_delay x r) /\
     get_sql_delay_end r' = delay_end).
Proof.
  unfold get_sql_delay, set_sql_delay. cbn [sql_delay].
  rewrite (sint32_small (sint32 x)) by apply sint32_range.
  split; [apply sint32_range|]. split; [apply sint32_congruent|].
  split; [|split].
  - split.
    + intros Heq. rewrite <- Heq. apply sint32_range.
    + apply sint32_small.
  - reflexivity.
  - intros delay_end r'. unfold start_sql_delay.
    destruct (Dep.mysql_mutex_assert_owner cfg self _) as [[]|e];
      cbn [mbind result_bind]; intros Hr; inversion Hr; subst r'.
    cbn. rewrite (sint32_small (sint32 x)) by apply sint32_range.
    split; reflexivity.
Qed.

Lemma sql_delay_narrowed_witness :
  let r := DelayState (Some 1%nat) 0 0 false 0 in
  get_sql_delay (set_sql_delay 86400 r) = 86400 /\
  get_sql_delay (set_sql_delay (2 ^ 32) r) = 0 /\
  get_sql_delay (set_sql_delay (2 ^ 31) r) = - 2 ^ 31.
Proof.
  intros r.
  destruct (sql_delay_narrowed (Build true true 1) 1%nat 86400 r)
    as (_ & _ & Hfits & _).
  split; [apply Hfits; lia|]. split; reflexivity.
Defined.

Lemma set_row_stmt_start_timestamp_set (now : Z) (r : delay_state) :
  row_stmt_start_timestamp r <> 0 ->
  set_row_stmt_start_timestamp now r = (row_stmt_start_timestamp r, r).
Proof.
  intros Hset. unfold set_row_stmt_start_timestamp.
  rewrite (proj2 (Z.eqb_neq _ _) Hset). reflexivity.
Qed.

Lemma set_row_stmt_start_timestamps_set (clock : list Z) (r : delay_state) :
  row_stmt_start_timestamp r <> 0 ->
  set_row_stmt_start_timestamps clock r
  = (replicate (length clock) (row_stmt_start_timestamp r), r).
Proof.
  intros Hset. induction clock as [|now clock IH]; [reflexivity|].
  cbn [set_row_stmt_start_timestamps].
  rewrite set_row_stmt_start_timestamp_set by exact Hset.
  rewrite IH. reflexivity.
Qed.

(** X9. [set_row_stmt_start_timestamp()] never overwrites a start time
    that is set: every call returns it and changes nothing.  After
    [reset_row_stmt_start_timestamp()] the first call reads the clock and
    all later calls return that reading, whatever the clock says then;
    unless the clock read 0, in which case the next call reads it again. *)
Theorem row_stmt_start_timestamp_sticks (now : Z) (clock : list Z)
  (r : delay_state) :
  (row_stmt_start_timestamp r <> 0 ->
   set_row_stmt_start_timestamps clock r
   = (replicate (length clock) (row_stmt_start_timestamp r), r)) /\
  (now <> 0 ->
   (set_row_stmt_start_timestamps (now :: clock)
      (reset_row_stmt_start_timestamp r)).1
   = replicate (S (length clock)) now) /\
  (set_row_stmt_start_timestamps (0 :: now :: clock)
     (reset_row_stmt_start_timestamp r)).1
  = 0 :: (set_row_stmt_start_timestamps (now :: clock)
            (reset_row_stmt_start_timestamp r)).1.
Proof.
  split; [apply set_row_stmt_start_timestamps_set|]. split.
  - intros Hnow. cbn [set_row_stmt_start_timestamps].
    unfold set_row_stmt_start_timestamp at 1. cbn.
    rewrite set_row_stmt_start_timestamps_set by exact Hnow. reflexivity.
  - cbn [set_row_stmt_start_timestamps].
    unfold set_row_stmt_start_timestamp at 1. cbn - [set_row_stmt_start_timestamp].
    destruct r as [dl sd sde wud ts]. cbn - [set_row_stmt_start_timestamp].
    destruct (set_row_stmt_start_timestamp now _) as [ts' r'].
    destruct (set_row_stmt_start_timestamps clock r') as [tss r''].
    reflexivity.
Qed.

Lemma row_stmt_start_timestamp_sticks_witness :
  let r := DelayState None 0 0 false 1700000000 in
  (set_row_stmt_start_timestamps [1700000123; 1700000200] r).1
  = [1700000000; 1700000000] /\
  (set_row_stmt_start_timestamps [1700000123; 1700000200]
     (reset_row_stmt_start_timestamp r)).1
  = [1700000123; 1700000123].
Proof.
  intros r.
  destruct (row_stmt_start_timestamp_sticks 1700000123 [1700000200] r)
    as (Hset & Hfirst & _).
  split.
  - rewrite (proj1 (row_stmt_start_timestamp_sticks 1700000123
                      [1700000123; 1700000200] r)) by discriminate.
    reflexivity.
  - apply Hfirst. discriminate.
Defined.

End DelayFacts.

(** *** The tables to lock *)

Section TablesFacts.
Import Tables.

Variable cfg : build.
Variable h : gmap positive RPL_TABLE_LIST.

Lemma find_table_data_skip (table_arg : option positive)
  (tabledef_var conv_table_var : out_param)
  (p q : option positive) (es : list (positive * RPL_TABLE_LIST)) :
  segment h p es q ->
  Forall (fun le => table le.2 <> table_arg) es ->
  forall fuel fuel' : nat,
    fuel = (length es + fuel')%nat ->
    find_table_data fuel h p table_arg tabledef_var conv_table_var
    = find_table_data fuel' h q table_arg tabledef_var conv_table_var.
Proof.
  intros Hseg. induction Hseg as [p|l e es q Hl Hseg IH];
    intros Hother fuel fuel' ->; [reflexivity|].
  apply Forall_cons in Hother as [Hne Hother]. cbn [length Nat.add].
  cbn [find_table_data]. rewrite Hl.
  rewrite bool_decide_eq_false_2 by exact Hne.
  apply IH; [exact Hother | reflexivity].
Qed.

(** X10. [get_table_data()] returns the data of the first entry of
    [tables_to_lock] whose table is [table_arg]: with [es] the entries
    before it, none of them for that table, it returns true with the
    address of that entry's [m_tabledef] and its [m_conv_table], and does
    not look at what follows.  When [es] is the whole list it returns false
    and leaves both out parameters as they were. *)
Theorem get_table_data_first_match (table_arg : option positive)
  (tabledef conv_table : option positive) (tables_to_lock : option positive)
  (es : list (positive * RPL_TABLE_LIST)) (fuel : nat) :
  Forall (fun le => table le.2 <> table_arg) es ->
  (length es < fuel)%nat ->
  (segment h tables_to_lock es None ->
   get_table_data fuel cfg h tables_to_lock table_arg
     (Some tabledef) (Some conv_table)
   = Ok (false, Some tabledef, Some conv_table)) /\
  (forall (l : positive) (e : RPL_TABLE_LIST),
     segment h tables_to_lock es (Some l) -> h !! l = Some e ->
     table e = table_arg ->
     get_table_data fuel cfg h tables_to_lock table_arg
       (Some tabledef) (Some conv_table)
     = Ok (true, Some (Some l), Some (m_conv_table e))).
Proof.
  intros Hother Hfuel. unfold get_table_data.
  rewrite DBUG_ASSERT_holds
    by (rewrite !bool_decide_eq_true_2 by eauto; reflexivity).
  cbn [mbind result_bind]. split.
  - intros Hseg.
    rewrite (find_table_data_skip _ _ _ _ _ _ Hseg Hother fuel
               (fuel - length es)) by lia.
    destruct (fuel - length es)%nat; reflexivity.
  - intros l e Hseg Hl Hmatch.
    rewrite (find_table_data_skip _ _ _ _ _ _ Hseg Hother fuel
               (fuel - length es)) by lia.
    destruct (fuel - length es)%nat as [|fuel'] eqn:Hleft; [lia|].
    cbn [find_table_data]. rewrite Hl.
    rewrite bool_decide_eq_true_2 by exact Hmatch. reflexivity.
Qed.

End TablesFacts.

Lemma get_table_data_first_match_witness :
  let h : gmap positive Tables.RPL_TABLE_LIST :=
    <[1%positive := Tables.TableList (Some 10%positive) (Some 2%positive)
                      None]>
      (<[2%positive := Tables.TableList (Some 20%positive) (Some 3%positive)
                         (Some 21%positive)]>
         (<[3%positive := Tables.TableList (Some 20%positive)
                            (Some 1%positive) (Some 22%positive)]> ∅)) in
  Tables.get_table_data 2 (Build true true 1) h (Some 1%positive)
    (Some 20%positive) (Some None) (Some None)
  = Ok (true, Some (Some 2%positive), Some (Some 21%positive)).
Proof.
  intros h.
  destruct (get_table_data_first_match (Build true true 1) h
              (Some 20%positive) None None (Some 1%positive)
              [(1%positive,
                Tables.TableList (Some 10%positive) (Some 2%positive) None)]
              2) as [_ Hfound].
  - repeat constructor. discriminate.
  - cbn. lia.
  - apply (Hfound 2%positive
             (Tables.TableList (Some 20%positive) (Some 3%positive)
                (Some 21%positive))).
    + eapply Tables.segment_cons; [reflexivity|]. apply Tables.segment_nil.
    + reflexivity.
    + reflexivity.
Defined.

(** *** More on [cleanup_group] *)

Section CleanupFacts.
Import Dep.

(** X11. [cleanup_group] on a group that it has already dealt with changes
    nothing, and its first loop then runs once only: the chain is cut after
    the first event. *)
Theorem cleanup_group_twice (cfg : build) (h : heap)
  (begin_event : option loc) (ls : list loc) (fuel : nat) :
  (1 <= dtor_depth cfg)%nat -> chain h begin_event ls ->
  (length ls <= fuel)%nat ->
  exists h' : heap,
    cleanup_group fuel cfg h begin_event = Ok h' /\
    forall fuel' : nat, (1 <= fuel')%nat ->
      cleanup_group fuel' cfg h' begin_event = Ok h'.
Proof.
  intros Hdepth Hc Hfuel. exists (cleared h ls).
  split; [apply cleanup_group_chain; assumption|].
  intros fuel' Hfuel'. pose proof (chain_NoDup _ _ _ Hc) as Hnd.
  destruct Hc as [|l w ls Hl Hrest].
  - apply (cleanup_group_chain cfg h None [] fuel' Hdepth);
      [constructor | cbn; lia].
  - assert (Hhead : cleared h (l :: ls) !! l = Some (reset_next_ev w)).
    { rewrite lookup_cleared by exact Hnd. cbn [head].
      rewrite decide_True by reflexivity. rewrite Hl. reflexivity. }
    assert (Hone : chain (cleared h (l :: ls)) (Some l) [l]).
    { econstructor; [exact Hhead|]. constructor. }
    destruct (cleanup_group_chain cfg _ _ _ fuel' Hdepth Hone) as [_ Hrun];
      [cbn; lia|].
    rewrite Hrun. f_equal.
    change (cleared (cleared h (l :: ls)) [l])
      with (alter reset_next_ev l (cleared h (l :: ls))).
    apply alter_id. intros w' Hw'. rewrite Hhead in Hw'.
    inversion Hw'. reflexivity.
Qed.

Lemma same_links_alter (f : Log_event_wrapper -> Log_event_wrapper)
  (h h' : heap) (l : loc) :
  (forall w, next_ev (f w) = next_ev w) ->
  same_links h h' -> same_links h (alter f l h').
Proof.
  intros Hf Hsame x. rewrite <- (Hsame x).
  destruct (decide (l = x)) as [->|Hne].
  - rewrite lookup_alter_eq. destruct (h' !! x) as [w|]; cbn; [|reflexivity].
    rewrite Hf. reflexivity.
  - rewrite lookup_alter_ne by exact Hne. reflexivity.
Qed.

Lemma collect_events_endless (R : loc -> Prop) (h : heap) (depth : nat) :
  (forall l, R l -> exists w l',
      h !! l = Some w /\ next_ev w = Some l' /\ R l') ->
  forall (fuel : nat) (h' : heap) (l : loc) (events : list loc),
    same_links h h' -> R l ->
    (forall w, h' !! l = Some w -> use_count w <> 1%positive) ->
    collect_events fuel depth h' (Some l) events = Fail OutOfFuel.
Proof.
  intros Hclosed. induction fuel as [|fuel IH];
    intros h' l events Hsame Hl Hshared; [reflexivity|].
  destruct (Hclosed l Hl) as (w & l' & Hw & Hnext & Hl').
  cbn [collect_events].
  pose proof (Hsame l) as Hlinks. rewrite Hw in Hlinks.
  destruct (h' !! l) as [w'|] eqn:Hw'; [|discriminate].
  cbn in Hlinks. inversion Hlinks as [Hnext']. rewrite Hnext in Hnext'.
  rewrite Hnext'. cbv zeta. cbn [sp_copy].
  assert (Hcur : exists w0, alter add_ref l' h' !! l = Some w0 /\
                            use_count w0 <> 1%positive).
  { destruct (decide (l' = l)) as [->|Hne].
    - exists (add_ref w'). rewrite lookup_alter_eq, Hw'.
      split; [reflexivity | apply Pos.succ_not_1].
    - exists w'. rewrite lookup_alter_ne by exact Hne.
      split; [exact Hw' | apply Hshared; reflexivity]. }
  destruct Hcur as (w0 & Hw0 & Hcount).
  assert (Hrelease : sp_release depth (alter add_ref l' h') (Some l)
                     = Ok (alter drop_ref l (alter add_ref l' h'))).
  { destruct depth; cbn [sp_release]; rewrite Hw0;
      rewrite bool_decide_eq_false_2 by exact Hcount; reflexivity. }
  rewrite Hrelease. cbn [mbind result_bind]. apply IH.
  - apply same_links_alter; [reflexivity|].
    apply same_links_alter; [reflexivity | exact Hsame].
  - exact Hl'.
  - intros w1. destruct (decide (l = l')) as [->|Hne].
    + rewrite lookup_alter_eq, lookup_alter_eq, Hw'. cbn.
      intros Hw1. inversion Hw1. cbn. rewrite Pos.pred_succ.
      apply Hshared. reflexivity.
    + rewrite lookup_alter_ne by exact Hne. rewrite lookup_alter_eq.
      destruct (h' !! l') as [w2|]; cbn; intros Hw1; inversion Hw1.
      cbn. apply Pos.succ_not_1.
Qed.

(** X12. If [begin_event] belongs to a set of wrappers alive each of which
    links to another one of the set (the chain runs into a cycle), the
    first loop of [cleanup_group] never ends: no loop budget is enough. *)
Theorem cleanup_group_endless (R : loc -> Prop) (cfg : build) (h : heap)
  (l : loc) (fuel : nat) :
  (forall l, R l -> exists w l',
      h !! l = Some w /\ next_ev w = Some l' /\ R l') ->
  R l ->
  cleanup_group fuel cfg h (Some l) = Fail OutOfFuel.
Proof.
  intros Hclosed Hl. unfold cleanup_group. cbv zeta.
  rewrite (collect_events_endless R h (dtor_depth cfg) Hclosed);
    [reflexivity | | exact Hl |].
  - cbn [sp_copy]. apply same_links_alter; [reflexivity|]. intros x.
    reflexivity.
  - intros w. cbn [sp_copy]. rewrite lookup_alter_eq.
    destruct (h !! l) as [w0|]; cbn; intros Hw; inversion Hw.
    cbn. apply Pos.succ_not_1.
Qed.

End CleanupFacts.

Lemma cleanup_group_twice_witness :
  let cfg := Build true true 1 in
  let h : gmap positive Dep.Log_event_wrapper :=
    <[1%positive := Dep.Wrapper (Some 2%positive) 1]>
      (<[2%positive := Dep.Wrapper (Some 3%positive) 1]>
         (<[3%positive := Dep.Wrapper None 2]> ∅)) in
  exists h' : gmap positive Dep.Log_event_wrapper,
    Dep.cleanup_group 3 cfg h (Some 1%positive) = Ok h' /\
    Dep.cleanup_group 1 cfg h' (Some 1%positive) = Ok h'.
Proof.
  intros cfg h.
  destruct (cleanup_group_twice cfg h (Some 1%positive)
              [1%positive; 2%positive; 3%positive] 3)
    as (h' & Hrun & Hagain).
  - cbn. lia.
  - eapply Dep.chain_link; [reflexivity|].
    eapply Dep.chain_link; [reflexivity|].
    eapply Dep.chain_link; [reflexivity|].
    apply Dep.chain_end.
  - cbn. lia.
  - exists h'. split; [exact Hrun|]. apply Hagain. lia.
Defined.

Lemma cleanup_group_endless_witness :
  let h : gmap positive Dep.Log_event_wrapper :=
    <[1%positive := Dep.Wrapper (Some 2%positive) 2]>
      (<[2%positive := Dep.Wrapper (Some 1%positive) 1]> ∅) in
  Dep.cleanup_group 1000 (Build true true 1) h (Some 1%positive)
  = Fail OutOfFuel.
Proof.
  intros h.
  apply (cleanup_group_endless
           (fun l => l = 1%positive \/ l = 2%positive)).
  - intros l [->| ->].
    + exists (Dep.Wrapper (Some 2%positive) 2), 2%positive. auto.
    + exists (Dep.Wrapper (Some 1%positive) 1), 1%positive. auto.
  - left. reflexivity.
Defined.

(** *** Tearing down the dependency tracker *)

Section TeardownFacts.
Import Dep.

Context {Dependency_key : Type} `{Countable Dependency_key}.
Variable cfg : build.
Variable self : thread_id.

Implicit Type s : tracker Dependency_key.

(** X13. A second [clear_dep()] after one that returned finds nothing left
    to do: with the same [need_dep_lock] and any loop budget it returns the
    state it was given. *)
Theorem clear_dep_twice (fuel fuel' : nat) (need_dep_lock : bool) s s' :
  clear_dep fuel cfg self need_dep_lock s = Ok s' ->
  clear_dep fuel' cfg self need_dep_lock s' = Ok s'.
Proof.
  intros Hrun. pose proof (clear_dep_inv cfg self _ _ _ _ Hrun)
    as (Hq & Hk & Hkeys & Hf & He & Hfc & Hd & Hw & Hn & Hlock & Hklock).
  assert (Hrest : dbs_accessed_by_group s' = ∅ /\ prev_event s' = None /\
                  table_map_events s' = ∅ /\
                  current_begin_event s' = None /\ trx_queued s' = false /\
                  num_events_in_current_group s' = 0).
  { unfold clear_dep in Hrun.
    bind_inv Hrun lk Hlk. bind_inv Hrun u Hassert. cbv zeta in Hrun.
    bind_inv Hrun h1 Hh1. bind_inv Hrun h2 Hh2. bind_inv Hrun h3 Hh3.
    bind_inv Hrun h4 Hh4. cbn [mysql_cond_broadcast] in Hrun.
    bind_inv Hrun klk Hklk. bind_inv Hrun h5 Hh5.
    bind_inv Hrun klk' Hklk'. bind_inv Hrun lk' Hlk'.
    inversion Hrun; subst s'. cbn. repeat split; reflexivity. }
  destruct Hrest as (Hdbs & Hprev & Htme & Hcur & Htq & Hnev).
  assert (Hrange : 0 <= num_in_flight_trx s' < 2 ^ 64).
  { rewrite Hn. apply wrap_range. lia. }
  unfold clear_dep.
  rewrite Hq, Hprev, Hcur, Hk, He, Hfc, Hd, Hklock.
  assert (Hassert : DBUG_ASSERT cfg
                      (Z.of_nat (length (@nil (option loc)))
                       <=? num_in_flight_trx s') = Ok tt).
  { apply DBUG_ASSERT_holds, Z.leb_le. cbn. lia. }
  assert (Hnum : ulonglong (num_in_flight_trx s'
                            - Z.of_nat (length (@nil (option loc))))
                 = num_in_flight_trx s').
  { cbn [length Z.of_nat]. rewrite Z.sub_0_r. apply wrap_small, Hrange. }
  rewrite Hassert, Hnum.
  destruct need_dep_lock; [rewrite Hlock|];
    repeat first
      [ progress cbn [mbind result_bind cleanup_groups sp_release_all
                      mysql_mutex_lock mysql_cond_broadcast fmap list_fmap]
      | rewrite sp_release_null
      | rewrite map_to_list_empty
      | rewrite mutex_unlock_own ];
    rewrite !app_nil_r; f_equal;
    destruct s'; cbn in *; subst; reflexivity.
Qed.


Lemma dequeue_n_spec (n : nat) :
  forall s, dep_lock s = Some self ->
    exists s1,
      dequeue_n cfg self n s
      = Ok (take n (dep_queue s)
            ++ replicate (n - length (dep_queue s)) None, s1) /\
      dep_queue s1 = drop n (dep_queue s) /\
      num_in_flight_trx s1 = num_in_flight_trx s /\
      wrappers s1 = wrappers s.
Proof.
  induction n as [|n IH]; intros s Hlock.
  - exists s. rewrite take_0, drop_0. auto.
  - cbn [dequeue_n]. rewrite dequeue_dep_held by exact Hlock.
    cbn [mbind result_bind].
    destruct (dep_queue s) as [|front rest] eqn:Hq.
    + destruct (IH s Hlock) as (s1 & Hrun & Hq1 & Hn1 & Hw1).
      rewrite Hrun, Hq in *. cbn [mbind result_bind].
      exists s1. rewrite take_nil, drop_nil in *. cbn [length] in *.
      rewrite Nat.sub_0_r in *. auto.
    + destruct (IH (with_queue s rest (wrappers s)) Hlock)
        as (s1 & Hrun & Hq1 & Hn1 & Hw1).
      rewrite Hrun. cbn [mbind result_bind]. exists s1. auto.
Qed.

(** X15. With [dep_lock] held and [num_in_flight_trx] at least the length
    of the queue: [n] calls of [dequeue_dep()] return the first [n] pending
    groups in order, and null pointers once the queue is empty; a
    [clear_dep(false)] after them takes only the groups still pending off
    [num_in_flight_trx], so the groups that were dequeued stay counted. *)
Theorem dispatched_groups_stay_in_flight (n fuel : nat) s
  (evs : list (option loc)) s1 s2 :
  dep_lock s = Some self ->
  Z.of_nat (length (dep_queue s)) <= num_in_flight_trx s < 2 ^ 64 ->
  dequeue_n cfg self n s = Ok (evs, s1) ->
  clear_dep fuel cfg self false s1 = Ok s2 ->
  evs = take n (dep_queue s) ++ replicate (n - length (dep_queue s)) None /\
  num_in_flight_trx s2
  = num_in_flight_trx s - Z.of_nat (length (dep_queue s) - n) /\
  Z.of_nat (n `min` length (dep_queue s)) <= num_in_flight_trx s2.
Proof.
  intros Hlock Hinv Hdeq Hclear.
  destruct (dequeue_n_spec n s Hlock) as (s1' & Hrun & Hq1 & Hn1 & _).
  rewrite Hrun in Hdeq. inversion Hdeq; subst evs s1'. clear Hdeq.
  split; [reflexivity|].
  apply clear_dep_inv in Hclear as (_ & _ & _ & _ & _ & _ & _ & _ & Hn & _).
  rewrite Hn, Hn1, Hq1, length_drop. unfold ulonglong.
  rewrite wrap_small by lia. split; lia.
Qed.

End TeardownFacts.

Section ReleaseFacts.
Import Dep.

Lemma cleanup_groups_cleared (fuel : nat) (cfg : build)
  (groups : list (list loc)) :
  forall (h : heap) (queue : list (option loc)),
    (1 <= dtor_depth cfg)%nat ->
    Forall2 (chain h) queue groups ->
    NoDup (mjoin groups) ->
    Forall (fun ls => (length ls <= fuel)%nat) groups ->
    cleanup_groups fuel cfg h queue = Ok (foldl cleared h groups).
Proof.
  induction groups as [|ls groups IH]; intros h queue Hdepth Hchains Hnd Hfuel.
  - apply Forall2_nil_inv_r in Hchains. subst queue. reflexivity.
  - apply Forall2_cons_inv_r in Hchains
      as (begin_event & queue' & Hc & Hchains & ->).
    cbn [mjoin list_join] in Hnd. apply NoDup_app in Hnd as (Hnd_ls & Hdisj & Hnd).
    apply Forall_cons in Hfuel as [Hlen Hfuel].
    cbn [cleanup_groups foldl].
    destruct (cleanup_group_chain cfg h begin_event ls fuel Hdepth Hc Hlen)
      as [_ Hrun].
    rewrite Hrun. cbn [mbind result_bind]. apply IH; try assumption.
    eapply chains_frame; [|exact Hchains].
    intros x Hx. apply lookup_cleared_outside; [exact Hnd_ls|].
    intros Hx_ls. exact (Hdisj x Hx_ls Hx).
Qed.

Lemma NoDup_join_group (groups : list (list loc)) (ls : list loc) :
  NoDup (mjoin groups) -> ls ∈ groups -> NoDup ls.
Proof.
  induction groups as [|g groups IH]; intros Hnd Hin.
  - apply elem_of_nil in Hin. contradiction.
  - cbn [mjoin list_join] in Hnd. apply NoDup_app in Hnd as (Hg & _ & Hrest).
    apply elem_of_cons in Hin as [->|Hin]; [exact Hg | apply IH; assumption].
Qed.

Lemma lookup_foldl_cleared_outside (groups : list (list loc)) (x : loc) :
  forall h : heap,
    NoDup (mjoin groups) -> x ∉ mjoin groups ->
    foldl cleared h groups !! x = h !! x.
Proof.
  induction groups as [|g groups IH]; intros h Hnd Hx; [reflexivity|].
  cbn [mjoin list_join] in Hnd, Hx.
  apply NoDup_app in Hnd as (Hg & _ & Hrest).
  rewrite elem_of_app in Hx. cbn [foldl].
  rewrite IH by tauto. apply lookup_cleared_outside; tauto.
Qed.

(** After the loop over the queue, an event of a pending group is as
    [cleanup_group] on its own group leaves it. *)
Lemma lookup_foldl_cleared (groups : list (list loc)) (ls : list loc)
  (x : loc) :
  forall h : heap,
    NoDup (mjoin groups) -> ls ∈ groups -> x ∈ ls ->
    foldl cleared h groups !! x = cleared h ls !! x.
Proof.
  induction groups as [|g groups IH]; intros h Hnd Hin Hx.
  - apply elem_of_nil in Hin. contradiction.
  - pose proof (NoDup_join_group _ _ Hnd Hin) as Hnd_ls.
    cbn [mjoin list_join] in Hnd.
    apply NoDup_app in Hnd as (Hg & Hdisj & Hrest). cbn [foldl].
    destruct (decide (x ∈ g)) as [Hxg|Hxg].
    + assert (Hout : x ∉ mjoin groups) by (apply Hdisj; exact Hxg).
      rewrite lookup_foldl_cleared_outside by assumption.
      apply elem_of_cons in Hin as [->|Hin]; [reflexivity|].
      exfalso. apply Hout, list_elem_of_join. exists ls. auto.
    + apply elem_of_cons in Hin as [->|Hin]; [contradiction|].
      rewrite IH by assumption.
      rewrite (lookup_cleared (cleared h g) ls x Hnd_ls).
      rewrite (lookup_cleared h ls x Hnd_ls).
      rewrite lookup_cleared_outside by assumption. reflexivity.
Qed.

(** Destroying the queue's pointers to events that have no link and no
    other owner destroys those events. *)
Lemma sp_release_all_sole (depth : nat) (ps : list (option loc)) :
  forall h : heap,
    (forall l, Some l ∈ ps ->
       h !! l = None \/ h !! l = Some (Wrapper None 1)) ->
    exists h' : heap,
      sp_release_all (S depth) h ps = Ok h' /\
      (forall l, Some l ∈ ps -> h' !! l = None) /\
      (forall x, is_Some (h' !! x) -> h' !! x = h !! x).
Proof.
  induction ps as [|p ps IH]; intros h Hsole.
  - exists h. split; [reflexivity|]. split; [|auto].
    intros l Hl. apply elem_of_nil in Hl. contradiction.
  - cbn [sp_release_all].
    assert (Hstep : exists h1,
              sp_release (S depth) h p = Ok h1 /\
              (forall l, p = Some l -> h1 !! l = None) /\
              (forall x, is_Some (h1 !! x) -> h1 !! x = h !! x)).
    { destruct p as [l|]; [|exists h; split; [reflexivity|]; split;
                            [discriminate | auto]].
      destruct (Hsole l) as [Hdead|Halive]; [apply list_elem_of_here| |].
      - exists h. cbn [sp_release]. rewrite Hdead.
        split; [reflexivity|]. split; [|auto].
        intros l' Hl'. inversion Hl'; subst. exact Hdead.
      - exists (delete l h). cbn [sp_release]. rewrite Halive. cbn [use_count].
        rewrite bool_decide_eq_true_2 by reflexivity. cbn [next_ev].
        split; [apply sp_release_null|]. split.
        + intros l' Hl'. inversion Hl'; subst. apply lookup_delete_eq.
        + intros x Hx. destruct (decide (l = x)) as [->|Hne].
          * rewrite lookup_delete_eq in Hx. destruct Hx as [? Hx].
            discriminate.
          * apply lookup_delete_ne. exact Hne. }
    destruct Hstep as (h1 & -> & Hgone & Hkeep). cbn [mbind result_bind].
    destruct (IH h1) as (h' & Hrun & Hgone' & Hkeep').
    { intros l Hl.
      destruct (h1 !! l) as [w|] eqn:Hw; [|left; reflexivity].
      right. rewrite <- Hw, Hkeep by (rewrite Hw; eauto).
      destruct (Hsole l) as [Hdead|Halive];
        [apply list_elem_of_further; exact Hl | | exact Halive].
      rewrite Hkeep, Hdead in Hw by (rewrite Hw; eauto). discriminate. }
    exists h'. split; [exact Hrun|]. split.
    + intros l Hl. apply elem_of_cons in Hl as [Hl|Hl].
      * destruct (h' !! l) as [w|] eqn:Hw; [|reflexivity].
        rewrite <- Hw, Hkeep' by (rewrite Hw; eauto).
        apply Hgone. symmetry. exact Hl.
      * apply Hgone', Hl.
    + intros x Hx. rewrite Hkeep' by exact Hx. apply Hkeep.
      rewrite <- Hkeep' by exact Hx. exact Hx.
Qed.


Lemma chains_heads (h : heap) (queue : list (option loc))
  (groups : list (list loc)) :
  Forall2 (chain h) queue groups ->
  (forall l, Some l ∈ queue -> exists rest, (l :: rest) ∈ groups) /\
  (forall l rest, (l :: rest) ∈ groups -> Some l ∈ queue).
Proof.
  induction 1 as [|p ls queue groups Hc _ [IHq IHg]]; split.
  - intros l Hl. apply elem_of_nil in Hl. contradiction.
  - intros l rest Hl. apply elem_of_nil in Hl. contradiction.
  - intros l Hl. apply elem_of_cons in Hl as [<-|Hl].
    + inversion Hc; subst. eexists. apply list_elem_of_here.
    + destruct (IHq l Hl) as [rest Hrest]. exists rest.
      apply list_elem_of_further, Hrest.
  - intros l rest Hl. apply elem_of_cons in Hl as [<-|Hl].
    + inversion Hc; subst. apply list_elem_of_here.
    + apply list_elem_of_further. eapply IHg, Hl.
Qed.

End ReleaseFacts.

Section NoLeakFacts.
Import Dep.

Context {Dependency_key : Type} `{Countable Dependency_key}.
Variable cfg : build.
Variable self : thread_id.

Implicit Type s : tracker Dependency_key.

(** X14. From a state in which [clear_dep] can run, and in which every
    event of the pending groups has one owner only (the queue for the first
    event of a group, the link of its predecessor for the others):
    [clear_dep()] returns, no event of a pending group is alive afterwards,
    and no wrapper is alive that was not alive before. *)
Theorem clear_dep_frees_groups (fuel : nat) (need_dep_lock : bool) s
  (groups : list (list loc)) :
  can_clear fuel cfg need_dep_lock s groups ->
  (forall x, x ∈ mjoin groups ->
     exists w, wrappers s !! x = Some w /\ use_count w = 1%positive) ->
  exists s',
    clear_dep fuel cfg self need_dep_lock s = Ok s' /\
    (forall x, x ∈ mjoin groups -> wrappers s' !! x = None) /\
    (forall x, is_Some (wrappers s' !! x) -> is_Some (wrappers s !! x)).
Proof.
  intros Hcan Hsole.
  pose proof Hcan
    as (Hlock & Hklock & Hassert & Hchains & Hnd & Hfuel & Hdepth & Hsize).
  destruct (chains_heads _ _ _ Hchains) as [Hheads_q Hheads_g].
  set (h := wrappers s) in *. set (h1 := foldl cleared h groups).
  assert (Hrun1 : cleanup_groups fuel cfg h (dep_queue s) = Ok h1)
    by (apply cleanup_groups_cleared; assumption).
  assert (Halive1 : forall x, is_Some (h1 !! x) -> is_Some (h !! x)).
  { destruct (cleanup_groups_total fuel cfg groups h (dep_queue s)
                Hdepth Hchains Hnd Hfuel) as (h1' & Hrun1' & Halive).
    rewrite Hrun1 in Hrun1'. inversion Hrun1'; subst h1'. exact Halive. }
  assert (Hin1 : forall ls x, ls ∈ groups -> x ∈ ls ->
            h1 !! x = if decide (Some x = head ls)
                      then Some (Wrapper None 1) else None).
  { intros ls x Hls Hx. unfold h1.
    rewrite (lookup_foldl_cleared groups ls x h Hnd Hls Hx).
    rewrite lookup_cleared by (eapply NoDup_join_group; eassumption).
    destruct (Hsole x) as (w & Hw & Hcount).
    { apply list_elem_of_join. exists ls. auto. }
    rewrite Hw, (decide_True _ _ Hx). case_decide; cbn.
    - unfold reset_next_ev. rewrite Hcount. reflexivity.
    - unfold released. rewrite bool_decide_eq_true_2 by exact Hcount.
      reflexivity. }
  destruct (dtor_depth cfg) as [|depth] eqn:Hd; [lia|].
  destruct (sp_release_all_sole depth (dep_queue s) h1)
    as (h2 & Hrun2 & Hgone2 & Hkeep2).
  { intros l Hl. destruct (Hheads_q l Hl) as [rest Hrest]. right.
    rewrite (Hin1 (l :: rest) l Hrest) by apply list_elem_of_here.
    cbn [head]. rewrite decide_True by reflexivity. reflexivity. }
  assert (Halive2 : forall x, is_Some (h2 !! x) -> is_Some (h1 !! x)).
  { intros x Hx. rewrite <- Hkeep2 by exact Hx. exact Hx. }
  assert (Hfree2 : forall x, x ∈ mjoin groups -> h2 !! x = None).
  { intros x Hx. apply list_elem_of_join in Hx as (ls & Hx & Hls).
    destruct (h2 !! x) as [w|] eqn:Hw; [|reflexivity].
    assert (Hw1 : h1 !! x = Some w)
      by (rewrite <- Hkeep2 by (rewrite Hw; eauto); exact Hw).
    rewrite (Hin1 ls x Hls Hx) in Hw1.
    destruct (decide (Some x = head ls)) as [Hhead|]; [|discriminate].
    destruct ls as [|l rest]; [discriminate|]. inversion Hhead; subst l.
    rewrite Hgone2 in Hw by (eapply Hheads_g; exact Hls). discriminate. }
  pose proof (alive_size _ _ Halive1) as Hsize1.
  pose proof (alive_size _ _ Halive2) as Hsize2.
  destruct (sp_release_total (S depth) h2 (prev_event s))
    as (h3 & Hrun3 & Halive3); [lia|].
  pose proof (alive_size _ _ Halive3) as Hsize3.
  destruct (sp_release_total (S depth) h3 (current_begin_event s))
    as (h4 & Hrun4 & Halive4); [lia|].
  pose proof (alive_size _ _ Halive4) as Hsize4.
  destruct (sp_release_all_total (S depth)
              ((map_to_list (dep_key_lookup s)).*2) h4)
    as (h5 & Hrun5 & Halive5); [lia|].
  destruct (clear_dep_returns cfg self fuel need_dep_lock s groups Hcan)
    as [s' Hrun].
  exists s'. split; [exact Hrun|].
  assert (Hw : wrappers s' = h5).
  { unfold clear_dep in Hrun. rewrite Hd in Hrun.
    bind_inv Hrun lk Hlk. bind_inv Hrun u Hu. cbv zeta in Hrun.
    fold h in Hrun. rewrite Hrun1 in Hrun. cbn [mbind result_bind] in Hrun.
    rewrite Hrun2 in Hrun. cbn [mbind result_bind] in Hrun.
    rewrite Hrun3 in Hrun. cbn [mbind result_bind] in Hrun.
    rewrite Hrun4 in Hrun. cbn [mbind result_bind] in Hrun.
    cbn [mysql_cond_broadcast] in Hrun. bind_inv Hrun klk Hklk.
    rewrite Hrun5 in Hrun. cbn [mbind result_bind] in Hrun.
    bind_inv Hrun klk' Hklk'. bind_inv Hrun lk' Hlk'.
    inversion Hrun. reflexivity. }
  rewrite Hw. split.
  - intros x Hx. destruct (h5 !! x) as [w|] eqn:Hx5; [|reflexivity].
    assert (Hx2 : is_Some (h2 !! x)).
    { apply Halive3, Halive4, Halive5. rewrite Hx5. eauto. }
    rewrite (Hfree2 x Hx) in Hx2. destruct Hx2 as [? Hx2]. discriminate.
  - intros x Hx. apply Halive1, Halive2, Halive3, Halive4, Halive5, Hx.
Qed.

End NoLeakFacts.

Lemma clear_dep_twice_witness :
  let cfg := Build true true 4 in
  exists s' : Dep.tracker nat,
    Dep.clear_dep 3 cfg 9%nat true (Dep.sample_tracker None) = Ok s' /\
    Dep.clear_dep 0 cfg 9%nat true s' = Ok s'.
Proof.
  intros cfg.
  destruct (clear_dep_returns cfg 9%nat 3 true _ _ sample_tracker_can_clear)
    as [s' Hrun].
  exists s'. split; [exact Hrun|].
  exact (clear_dep_twice cfg 9%nat 3 0 true _ s' Hrun).
Defined.

Lemma dispatched_groups_stay_in_flight_witness :
  let cfg := Build true true 4 in
  let s1 := Dep.with_queue (Dep.sample_tracker (Some 1%nat))
              [Some 4%positive]
              (Dep.wrappers (Dep.sample_tracker (Some 1%nat))) in
  Dep.dequeue_n cfg 1%nat 1 (Dep.sample_tracker (Some 1%nat))
  = Ok ([Some 1%positive], s1) /\
  match Dep.clear_dep 3 cfg 1%nat false s1 with
  | Ok s2 => Dep.num_in_flight_trx s2 = 4
  | Fail _ => False
  end.
Proof.
  intros cfg s1.
  assert (Hdeq : Dep.dequeue_n cfg 1%nat 1 (Dep.sample_tracker (Some 1%nat))
                 = Ok ([Some 1%positive], s1)).
  { cbn [Dep.dequeue_n]. rewrite dequeue_dep_held by reflexivity.
    reflexivity. }
  split; [exact Hdeq|].
  destruct (Dep.clear_dep 3 cfg 1%nat false s1) as [s2|e] eqn:Hclear.
  - destruct (dispatched_groups_stay_in_flight cfg 1%nat 1 3
                (Dep.sample_tracker (Some 1%nat)) [Some 1%positive] s1 s2)
      as (_ & Hn & _); [reflexivity | cbn; lia | exact Hdeq | exact Hclear |].
    rewrite Hn. reflexivity.
  - vm_compute in Hclear. discriminate Hclear.
Defined.

(** Two pending groups that only the queue owns (events 1, 2, 3 and
    event 4), and event 5, the last writer of key 7, which the map alone
    owns. *)
Lemma clear_dep_frees_groups_witness :
  let cfg := Build true true 5 in
  let s : Dep.tracker nat :=
    {| Dep.dep_queue := [Some 1%positive; Some 4%positive];
       Dep.dep_lock := None;
       Dep.dep_key_lookup := {[ 7%nat := Some 5%positive ]};
       Dep.dep_key_lookup_mutex := None;
       Dep.keys_accessed_by_group := {[ 7%nat ]};
       Dep.dbs_accessed_by_group := {[ "test"%string ]};
       Dep.dep_full_cond := [0%nat];
       Dep.dep_full := true;
       Dep.dep_empty_cond := [2%nat; 3%nat];
       Dep.num_workers_waiting := 2;
       Dep.prev_event := None;
       Dep.table_map_events := ∅;
       Dep.current_begin_event := None;
       Dep.trx_queued := true;
       Dep.dep_sync_group := false;
       Dep.dep_trx_all_done_cond := [5%nat];
       Dep.num_in_flight_trx := 5;
       Dep.num_events_in_current_group := 3;
       Dep.wrappers :=
         <[1%positive := Dep.Wrapper (Some 2%positive) 1]>
           (<[2%positive := Dep.Wrapper (Some 3%positive) 1]>
              (<[3%positive := Dep.Wrapper None 1]>
                 (<[4%positive := Dep.Wrapper None 1]>
                    (<[5%positive := Dep.Wrapper None 1]> ∅))));
       Dep.woken := [] |} in
  exists s' : Dep.tracker nat,
    Dep.clear_dep 3 cfg 9%nat true s = Ok s' /\
    Dep.wrappers s' !! 1%positive = None /\
    Dep.wrappers s' !! 3%positive = None /\
    Dep.wrappers s' !! 4%positive = None.
Proof.
  intros cfg s.
  destruct (clear_dep_frees_groups cfg 9%nat 3 true s
              [[1%positive; 2%positive; 3%positive]; [4%positive]])
    as (s' & Hrun & Hfree & _).
  - unfold Dep.can_clear. split; [reflexivity|]. split; [reflexivity|].
    split; [right; cbn; lia|]. split; [|split; [|split; [|split]]].
    + constructor; [|constructor; [|constructor]].
      * eapply Dep.chain_link; [reflexivity|].
        eapply Dep.chain_link; [reflexivity|].
        eapply Dep.chain_link; [reflexivity|].
        apply Dep.chain_end.
      * eapply Dep.chain_link; [reflexivity|]. apply Dep.chain_end.
    + cbn. repeat (apply NoDup_cons; split;
                   [rewrite ?not_elem_of_cons; repeat split;
                    first [discriminate | apply not_elem_of_nil]|]).
      apply NoDup_nil_2.
    + repeat constructor.
    + cbn. lia.
    + vm_compute. lia.
  - cbn. intros x Hx. rewrite !elem_of_cons, elem_of_nil in Hx.
    destruct Hx as [->|[->|[->|[->|[]]]]]; eexists; split; reflexivity.
  - exists s'. split; [exact Hrun|].
    repeat split; apply Hfree; cbn; rewrite !elem_of_cons; auto.
Defined.
